(** * CustomDecisionTree (Workshops/Workshop8.ipynb): a shallow embedding

    The notebook's first code cell defines [CustomDecisionTree], an
    entropy based binary decision tree over numpy arrays.  This file
    embeds its methods as Rocq functions and proves or refutes the
    properties stated about them.

    Conventions of the embedding.
    - A class label is a [nat]: [np.bincount] accepts non-negative
      integers only.
    - A feature value is a [Z]; the code only ever compares feature values
      ([<=], [np.unique]), so any totally ordered carrier behaves alike.
    - A feature matrix is a list of rows.  [X.shape] is read off the list:
      the row count is its length, the column count the length of the
      first row (a matrix without rows never reaches the feature loop).
    - Python exceptions are values of [exception]; a computation is a
      [result].  The recursion of [_build_tree] is not structural, so the
      embedding carries the remaining interpreter stack depth as fuel and
      raises [RecursionError] when it is used up, as CPython does.
    - [fit] is called as its contract says, with as many labels as rows;
      the recursive calls keep that, since [X[idx]] has one row per entry
      of [idx].
    - numpy's float64 arithmetic is idealised by the real numbers: the
      entropy and the information gain are values of [R], [np.log2] is
      [ln x / ln 2], and [-float('inf')] is the extra point [NegInf].
      Which split wins a scan depends on that arithmetic, so the split
      search and the builder are also given with the gain values, their
      comparison and the gain function as parameters ([best_split_with],
      [build_tree_with], [fit_with]); the float64 arithmetic of the code is
      one instance, the reals another. *)

From Stdlib Require Import List ZArith Arith Bool Lia Permutation Sorted.
From Stdlib Require Import Reals Lra.
Import ListNotations.

(** ** Exceptions and results *)

Inductive exception : Type :=
| ValueError
| IndexError
| TypeError
| RecursionError.

Inductive result (A : Type) : Type :=
| Ok (a : A)
| Raise (e : exception).

Arguments Ok {A} a.
Arguments Raise {A} e.

Definition bind {A B : Type} (m : result A) (k : A -> result B) : result B :=
  match m with
  | Ok a => k a
  | Raise e => Raise e
  end.

Notation "x <- m ;; k" := (bind m (fun x => k))
  (at level 61, m at next level, right associativity).

(** ** Data model *)

Definition label := nat.
Definition row := list Z.
Definition matrix := list row.

(** The dict shaped node: [{'class': c}] or
    [{'feature_idx': f, 'threshold': t, 'left_tree': l, 'right_tree': r}]. *)
Inductive tree : Type :=
| Leaf (class : label)
| Internal (feature_idx : nat) (threshold : Z) (left_tree right_tree : tree).

(** The instance attributes set by [__init__]. *)
Record CustomDecisionTree : Type := mkModel {
  max_depth : option nat;
  fitted : option tree
}.

Definition init (max_depth : option nat) : CustomDecisionTree :=
  {| max_depth := max_depth; fitted := None |}.

(** ** numpy helpers *)

(** [np.unique]: the sorted distinct values of an array. *)
Section Unique.

Variable A : Type.
Variable ltb : A -> A -> bool.
Variable eqb : A -> A -> bool.

Fixpoint insert_unique (v : A) (l : list A) : list A :=
  match l with
  | [] => [v]
  | h :: t =>
      if ltb v h then v :: l
      else if eqb v h then l
      else h :: insert_unique v t
  end.

Definition unique (l : list A) : list A := fold_right insert_unique [] l.

End Unique.

Arguments insert_unique {A} ltb eqb v l.
Arguments unique {A} ltb eqb l.

Definition np_unique_Z : list Z -> list Z := unique Z.ltb Z.eqb.
Definition np_unique : list label -> list label := unique Nat.ltb Nat.eqb.

(** [np.bincount(y)]: occurrences of every value from 0 to [max y]; the
    empty array for an empty [y]. *)
Definition bincount (y : list label) : list nat :=
  match y with
  | [] => []
  | _ :: _ => map (count_occ Nat.eq_dec y) (seq 0 (S (list_max y)))
  end.

(** [a.argmax()]: the first index of the greatest entry; [ValueError] on an
    empty array. *)
Fixpoint argmax_from (i best_i best_v : nat) (l : list nat) : nat :=
  match l with
  | [] => best_i
  | v :: t =>
      if best_v <? v then argmax_from (S i) i v t
      else argmax_from (S i) best_i best_v t
  end.

Definition argmax (l : list nat) : result nat :=
  match l with
  | [] => Raise ValueError
  | v :: t => Ok (argmax_from 1 0 v t)
  end.

(** [y[mask]]: boolean mask selection, for a mask as long as the array
    (numpy raises [IndexError] otherwise; under [fit]'s contract the two
    always have the same length). *)
Fixpoint select {A : Type} (mask : list bool) (l : list A) : list A :=
  match mask, l with
  | b :: mask', a :: l' => if b then a :: select mask' l' else select mask' l'
  | _, _ => []
  end.

(** [X[idx]] with an integer array [idx]: one row of [X] per entry of
    [idx]; [IndexError] when an entry is not a row number of [X]. *)
Fixpoint take_rows (X : matrix) (idx : list nat) : result matrix :=
  match idx with
  | [] => Ok []
  | i :: idx' =>
      match nth_error X i with
      | None => Raise IndexError
      | Some r => rows <- take_rows X idx' ;; Ok (r :: rows)
      end
  end.

(** [X[:, feature_idx]]. *)
Definition column (feature_idx : nat) (X : matrix) : list Z :=
  map (fun r => nth feature_idx r 0%Z) X.

Definition num_samples (X : matrix) : nat := length X.

Definition num_features (X : matrix) : nat :=
  match X with
  | [] => 0
  | r :: _ => length r
  end.

(** ** Entropy and information gain *)

Open Scope R_scope.

Definition eps : R := / 1000000000.

Definition log2 (x : R) : R := ln x / ln 2.

Definition Rsum (l : list R) : R := fold_right Rplus 0 l.

(** [class_probs = np.bincount(y) / len(y)]. *)
Definition class_probs (y : list label) : list R :=
  map (fun c => INR c / INR (length y)) (bincount y).

(** [-np.sum(class_probs * np.log2(class_probs + 1e-9))]. *)
Definition entropy (y : list label) : R :=
  - Rsum (map (fun p => p * log2 (p + eps)) (class_probs y)).

Definition information_gain (parent left right : list label) : R :=
  let parent_entropy := entropy parent in
  let left_entropy := entropy left in
  let right_entropy := entropy right in
  let weighted_avg_entropy :=
    (INR (length left) / INR (length parent)) * left_entropy
    + (INR (length right) / INR (length parent)) * right_entropy in
  parent_entropy - weighted_avg_entropy.

Close Scope R_scope.

(** ** Split search (the double loop of [_build_tree]) *)

(** The [best_split] dict. *)
Record split : Type := mkSplit {
  split_feature_idx : nat;
  split_threshold : Z;
  left_y : list label;
  right_y : list label
}.

(** [best_info_gain] starts at [-float('inf')]. *)
Inductive gain : Type :=
| NegInf
| Fin (g : R).

(** [info_gain > best_info_gain]. *)
Definition gain_gt (info_gain : R) (best_info_gain : gain) : bool :=
  match best_info_gain with
  | NegInf => true
  | Fin b => if Rgt_dec info_gain b then true else false
  end.

(** What one iteration of the inner loop computes before the comparison. *)
Definition candidate (X : matrix) (y : list label) (feature_idx : nat)
    (threshold : Z) : split :=
  let left_mask := map (fun v => (v <=? threshold)%Z) (column feature_idx X) in
  let right_mask := map negb left_mask in
  {| split_feature_idx := feature_idx;
     split_threshold := threshold;
     left_y := select left_mask y;
     right_y := select right_mask y |}.

(** All iterations, in the order the two nested [for] loops run them. *)
Definition candidates (X : matrix) (y : list label) : list split :=
  flat_map
    (fun feature_idx =>
       map (candidate X y feature_idx) (np_unique_Z (column feature_idx X)))
    (seq 0 (num_features X)).

Definition split_gain (y : list label) (s : split) : R :=
  information_gain y (left_y s) (right_y s).

(** The loop state is the pair [(best_info_gain, best_split)]. *)
Definition scan_step (y : list label) (st : gain * option split) (s : split)
    : gain * option split :=
  let info_gain := split_gain y s in
  if gain_gt info_gain (fst st) then (Fin info_gain, Some s) else st.

Definition scan (y : list label) (cands : list split)
    (st : gain * option split) : gain * option split :=
  fold_left (scan_step y) cands st.

Definition best_split (X : matrix) (y : list label) : option split :=
  snd (scan y (candidates X y) (NegInf, None)).

(** ** Tree builder *)

(** [self.max_depth and depth >= self.max_depth]: [None] and [0] are both
    falsy. *)
Definition depth_reached (max_depth : option nat) (depth : nat) : bool :=
  match max_depth with
  | None => false
  | Some 0 => false
  | Some m => m <=? depth
  end.

(** [{'class': np.bincount(y).argmax()}]. *)
Definition majority_leaf (y : list label) : result tree :=
  c <- argmax (bincount y) ;; Ok (Leaf c).

Fixpoint build_tree (max_depth : option nat) (fuel : nat) (X : matrix)
    (y : list label) (depth : nat) : result tree :=
  match fuel with
  | O => Raise RecursionError
  | S fuel' =>
      let unique_classes := np_unique y in
      if length unique_classes =? 1 then Ok (Leaf (hd 0 unique_classes))
      else if (num_samples X =? 0) || depth_reached max_depth depth
      then majority_leaf y
      else
        match best_split X y with
        | None => majority_leaf y
        | Some s =>
            XL <- take_rows X (left_y s) ;;
            left_tree <- build_tree max_depth fuel' XL (left_y s) (S depth) ;;
            XR <- take_rows X (right_y s) ;;
            right_tree <- build_tree max_depth fuel' XR (right_y s) (S depth) ;;
            Ok (Internal (split_feature_idx s) (split_threshold s)
                  left_tree right_tree)
        end
  end.

(** [fit]: [self.tree] is assigned only when [_build_tree] returns. *)
Definition fit (fuel : nat) (m : CustomDecisionTree) (X : matrix)
    (y : list label) : result CustomDecisionTree :=
  t <- build_tree (max_depth m) fuel X y 0 ;;
  Ok {| max_depth := max_depth m; fitted := Some t |}.

(** ** Predictor *)

(** [_predict_single(x, tree)] on a dict; [x[i]] raises [IndexError] past
    the end of the row. *)
Fixpoint predict_node (x : row) (t : tree) : result label :=
  match t with
  | Leaf c => Ok c
  | Internal feature_idx threshold left_tree right_tree =>
      match nth_error x feature_idx with
      | None => Raise IndexError
      | Some feature_val =>
          if (feature_val <=? threshold)%Z then predict_node x left_tree
          else predict_node x right_tree
      end
  end.

(** [_predict_single] as [predict] calls it, with [self.tree]: on [None],
    the test ['class' in tree] raises [TypeError]. *)
Definition predict_single (x : row) (t : option tree) : result label :=
  match t with
  | None => Raise TypeError
  | Some t' => predict_node x t'
  end.

(** [[self._predict_single(x, self.tree) for x in X]]. *)
Fixpoint predict_rows (t : option tree) (X : matrix) : result (list label) :=
  match X with
  | [] => Ok []
  | x :: X' =>
      c <- predict_single x t ;;
      cs <- predict_rows t X' ;;
      Ok (c :: cs)
  end.

Definition predict (m : CustomDecisionTree) (X : matrix) : result (list label) :=
  predict_rows (fitted m) X.

(** ** The split search and the builder over any gain arithmetic

    The loop only ever compares gains.  Here the values of the gains
    ([G], for the code the float64 values other than NaN), the starting
    value [-float('inf')], the comparison [>] and [_information_gain] are
    parameters; the definitions above are the instance at the reals. *)
Section GainArithmetic.

Variable G : Type.
Variable neg_inf : G.
Variable gtb : G -> G -> bool.
Variable info_gain : list label -> list label -> list label -> G.

Definition split_gain_with (y : list label) (s : split) : G :=
  info_gain y (left_y s) (right_y s).

Definition scan_step_with (y : list label) (st : G * option split)
    (s : split) : G * option split :=
  let g := split_gain_with y s in
  if gtb g (fst st) then (g, Some s) else st.

Definition scan_with (y : list label) (cands : list split)
    (st : G * option split) : G * option split :=
  fold_left (scan_step_with y) cands st.

Definition best_split_with (X : matrix) (y : list label) : option split :=
  snd (scan_with y (candidates X y) (neg_inf, None)).

Fixpoint build_tree_with (max_depth : option nat) (fuel : nat) (X : matrix)
    (y : list label) (depth : nat) : result tree :=
  match fuel with
  | O => Raise RecursionError
  | S fuel' =>
      let unique_classes := np_unique y in
      if length unique_classes =? 1 then Ok (Leaf (hd 0 unique_classes))
      else if (num_samples X =? 0) || depth_reached max_depth depth
      then majority_leaf y
      else
        match best_split_with X y with
        | None => majority_leaf y
        | Some s =>
            XL <- take_rows X (left_y s) ;;
            left_tree <- build_tree_with max_depth fuel' XL (left_y s)
                           (S depth) ;;
            XR <- take_rows X (right_y s) ;;
            right_tree <- build_tree_with max_depth fuel' XR (right_y s)
                            (S depth) ;;
            Ok (Internal (split_feature_idx s) (split_threshold s)
                  left_tree right_tree)
        end
  end.

Definition fit_with (fuel : nat) (m : CustomDecisionTree) (X : matrix)
    (y : list label) : result CustomDecisionTree :=
  t <- build_tree_with (max_depth m) fuel X y 0 ;;
  Ok {| max_depth := max_depth m; fitted := Some t |}.

(** [s] is the first element of [l] that no element of [l] exceeds in
    gain: the elements before it are strictly below it, none after it is
    above it. *)
Definition first_greatest (y : list label) (l : list split) (s : split)
    : Prop :=
  exists l1 l2,
    l = l1 ++ s :: l2
    /\ Forall (fun c => gtb (split_gain_with y s) (split_gain_with y c) = true)
         l1
    /\ Forall (fun c => gtb (split_gain_with y c) (split_gain_with y s) = false)
         l2.

End GainArithmetic.

Arguments split_gain_with {G} info_gain y s.
Arguments scan_step_with {G} gtb info_gain y st s.
Arguments scan_with {G} gtb info_gain y cands st.
Arguments best_split_with {G} neg_inf gtb info_gain X y.
Arguments build_tree_with {G} neg_inf gtb info_gain max_depth fuel X y depth.
Arguments fit_with {G} neg_inf gtb info_gain fuel m X y.
Arguments first_greatest {G} gtb info_gain y l s.

(** The instance used above: gains in the reals extended by minus
    infinity. *)
Definition gain_gtb (a b : gain) : bool :=
  match a with
  | NegInf => false
  | Fin r => gain_gt r b
  end.

Definition real_info_gain (parent left right : list label) : gain :=
  Fin (information_gain parent left right).

(** * Vocabulary of the properties *)

(** [s] is the first element of [l] whose gain is maximal in [l]. *)
Definition first_maximal (y : list label) (l : list split) (s : split) : Prop :=
  exists l1 l2,
    l = l1 ++ s :: l2
    /\ Forall (fun c => (split_gain y c < split_gain y s)%R) l1
    /\ Forall (fun c => (split_gain y c <= split_gain y s)%R) l2.

(** Feature index ascending, then threshold ascending. *)
Definition scan_before (a b : split) : Prop :=
  split_feature_idx a < split_feature_idx b
  \/ (split_feature_idx a = split_feature_idx b
      /\ (split_threshold a < split_threshold b)%Z).

(** The traversal as the specification words it: a leaf answers with its
    label, an internal node sends the row left when its value at the node's
    feature index is at most the threshold and right otherwise. *)
Inductive routes (x : row) : tree -> label -> Prop :=
| routes_leaf (c : label) : routes x (Leaf c) c
| routes_left (f : nat) (th : Z) (l r : tree) (v : Z) (c : label) :
    nth_error x f = Some v -> (v <= th)%Z -> routes x l c ->
    routes x (Internal f th l r) c
| routes_right (f : nat) (th : Z) (l r : tree) (v : Z) (c : label) :
    nth_error x f = Some v -> (th < v)%Z -> routes x r c ->
    routes x (Internal f th l r) c.

(** Every feature index of the tree is a column of an [M] column matrix. *)
Fixpoint features_below (M : nat) (t : tree) : Prop :=
  match t with
  | Leaf _ => True
  | Internal f _ l r => f < M /\ features_below M l /\ features_below M r
  end.

(** The recorded best gain lies strictly below [r]. *)
Definition gain_below (g : gain) (r : R) : Prop :=
  match g with
  | NegInf => True
  | Fin b => (b < r)%R
  end.

(** The worked example: four samples of one feature, two classes. *)
Definition worked_X : matrix := [[1]; [2]; [3]; [4]]%Z.
Definition worked_y : list label := [0; 0; 1; 1].

Definition worked_split : split :=
  {| split_feature_idx := 0; split_threshold := 2;
     left_y := [0; 0]; right_y := [1; 1] |}.

Definition worked_tree : tree := Internal 0 2 (Leaf 0) (Leaf 1).

(** [c] occurs at least as often as every label, strictly more often than
    every smaller label, and occurs at all. *)
Definition is_majority (y : list label) (c : label) : Prop :=
  (forall j, count_occ Nat.eq_dec y j <= count_occ Nat.eq_dec y c)
  /\ (forall j, j < c -> count_occ Nat.eq_dec y j < count_occ Nat.eq_dec y c)
  /\ In c y.

(** The rows of the node whose value at feature [f] is at most [t], and the
    remaining rows: the partition a split stands for. *)
Definition rows_le (X : matrix) (f : nat) (t : Z) : matrix :=
  select (map (fun v => (v <=? t)%Z) (column f X)) X.

Definition rows_gt (X : matrix) (f : nat) (t : Z) : matrix :=
  select (map negb (map (fun v => (v <=? t)%Z) (column f X))) X.

(** Two samples whose second label is not a row number of the matrix. *)
Definition out_of_range_X : matrix := [[1]; [2]]%Z.
Definition out_of_range_y : list label := [0; 5].

(** Two samples of two classes whose only feature is constant. *)
Definition constant_X : matrix := [[5]; [5]]%Z.
Definition constant_y : list label := [0; 1].

Definition constant_split : split :=
  {| split_feature_idx := 0; split_threshold := 5;
     left_y := [0; 1]; right_y := [] |}.

(** The number of classes that occur. *)
Definition nonzero (cs : list nat) : nat :=
  length (filter (fun c => 0 <? c) cs).

Open Scope R_scope.

(** One summand of the entropy, for a class counted [c] times among [n]. *)
Definition term (n c : nat) : R :=
  INR c / INR n * log2 (INR c / INR n + eps).

(** The summand that bounds [- term n c] in the proof that the entropy of
    [K] occurring classes is at most [log2 K] (from [ln z <= z - 1]). *)
Definition gibbs (n : nat) (K : R) (c : nat) : R :=
  INR c * (log2 K / INR n - / INR n / ln 2)
  + (if (0 <? c)%nat then / K / ln 2 else 0).

Close Scope R_scope.

(** The number of tests on the longest path from the root to a leaf. *)
Fixpoint height (t : tree) : nat :=
  match t with
  | Leaf _ => 0
  | Internal _ _ l r => S (Nat.max (height l) (height r))
  end.

(** The labels carried by the leaves, left to right. *)
Fixpoint leaf_labels (t : tree) : list label :=
  match t with
  | Leaf c => [c]
  | Internal _ _ l r => leaf_labels l ++ leaf_labels r
  end.

(** * Properties *)

(** ** [np.unique] *)

Lemma insert_unique_Z_in (v x : Z) (l : list Z) :
  In x (insert_unique Z.ltb Z.eqb v l) <-> x = v \/ In x l.
Proof.
  induction l as [|h t IH]; simpl.
  - intuition.
  - destruct (Z.ltb_spec v h); simpl.
    + intuition.
    + destruct (Z.eqb_spec v h); simpl.
      * subst. intuition.
      * rewrite IH. intuition.
Qed.

Lemma np_unique_Z_in (x : Z) (l : list Z) : In x (np_unique_Z l) <-> In x l.
Proof.
  unfold np_unique_Z, unique.
  induction l as [|h t IH]; simpl.
  - tauto.
  - rewrite insert_unique_Z_in, IH. intuition.
Qed.

Lemma insert_unique_Z_sorted (v : Z) (l : list Z) :
  StronglySorted Z.lt l -> StronglySorted Z.lt (insert_unique Z.ltb Z.eqb v l).
Proof.
  induction 1 as [|h t Hs IH Hall]; simpl.
  - repeat constructor.
  - destruct (Z.ltb_spec v h).
    + constructor.
      * constructor; assumption.
      * constructor; [assumption|].
        eapply Forall_impl; [|exact Hall]. simpl. intros. lia.
    + destruct (Z.eqb_spec v h).
      * constructor; assumption.
      * constructor; [assumption|].
        apply Forall_forall. intros x Hx.
        apply insert_unique_Z_in in Hx. destruct Hx as [->|Hx].
        -- lia.
        -- rewrite Forall_forall in Hall. auto.
Qed.

Lemma np_unique_Z_sorted (l : list Z) : StronglySorted Z.lt (np_unique_Z l).
Proof.
  unfold np_unique_Z, unique.
  induction l; simpl.
  - constructor.
  - apply insert_unique_Z_sorted. assumption.
Qed.

Lemma insert_unique_not_nil (A : Type) (ltb eqb : A -> A -> bool) (v : A)
    (l : list A) : insert_unique ltb eqb v l <> [].
Proof.
  destruct l; simpl.
  - discriminate.
  - destruct (ltb v a); [discriminate|]. destruct (eqb v a); discriminate.
Qed.

Lemma unique_not_nil (A : Type) (ltb eqb : A -> A -> bool) (l : list A) :
  l <> [] -> unique ltb eqb l <> [].
Proof.
  destruct l; [congruence|]. intros _. simpl. apply insert_unique_not_nil.
Qed.

Lemma insert_unique_nat_in (v x : nat) (l : list nat) :
  In x (insert_unique Nat.ltb Nat.eqb v l) <-> x = v \/ In x l.
Proof.
  induction l as [|h t IH]; simpl.
  - intuition.
  - destruct (Nat.ltb_spec v h); simpl.
    + intuition.
    + destruct (Nat.eqb_spec v h); simpl.
      * subst. intuition.
      * rewrite IH. intuition.
Qed.

Lemma np_unique_in (x : label) (y : list label) : In x (np_unique y) <-> In x y.
Proof.
  unfold np_unique, unique.
  induction y as [|h t IH]; simpl.
  - tauto.
  - rewrite insert_unique_nat_in, IH. intuition.
Qed.

Lemma insert_unique_nat_sorted (v : nat) (l : list nat) :
  StronglySorted lt l -> StronglySorted lt (insert_unique Nat.ltb Nat.eqb v l).
Proof.
  induction 1 as [|h t Hs IH Hall]; simpl.
  - repeat constructor.
  - destruct (Nat.ltb_spec v h).
    + constructor.
      * constructor; assumption.
      * constructor; [assumption|].
        eapply Forall_impl; [|exact Hall]. simpl. intros. lia.
    + destruct (Nat.eqb_spec v h).
      * constructor; assumption.
      * constructor; [assumption|].
        apply Forall_forall. intros x Hx.
        apply insert_unique_nat_in in Hx. destruct Hx as [->|Hx].
        -- lia.
        -- rewrite Forall_forall in Hall. auto.
Qed.

Lemma np_unique_sorted (y : list label) : StronglySorted lt (np_unique y).
Proof.
  unfold np_unique, unique.
  induction y; simpl.
  - constructor.
  - apply insert_unique_nat_sorted. assumption.
Qed.

Lemma StronglySorted_lt_NoDup (l : list nat) : StronglySorted lt l -> NoDup l.
Proof.
  induction 1 as [|h t Hs IH Hall].
  - constructor.
  - constructor; [|assumption].
    intros Hin. rewrite Forall_forall in Hall. specialize (Hall _ Hin). lia.
Qed.

(** ** The scan keeps the first candidate of greatest gain *)

Lemma scan_step_Fin (y : list label) (b : R) (o : option split) (s : split) :
  scan_step y (Fin b, o) s
  = if Rlt_dec b (split_gain y s) then (Fin (split_gain y s), Some s)
    else (Fin b, o).
Proof.
  unfold scan_step, gain_gt. simpl.
  destruct (Rgt_dec (split_gain y s) b) as [Hgt|Hngt];
    destruct (Rlt_dec b (split_gain y s)) as [Hlt|Hnlt];
    try reflexivity; unfold Rgt in *; contradiction.
Qed.

Lemma scan_step_NegInf (y : list label) (o : option split) (s : split) :
  scan_step y (NegInf, o) s = (Fin (split_gain y s), Some s).
Proof. reflexivity. Qed.

Lemma scan_invariant (y : list label) (cands l1 l2 : list split) (s : split) :
  Forall (fun c => (split_gain y c < split_gain y s)%R) l1 ->
  Forall (fun c => (split_gain y c <= split_gain y s)%R) l2 ->
  exists s',
    scan y cands (Fin (split_gain y s), Some s) = (Fin (split_gain y s'), Some s')
    /\ first_maximal y (l1 ++ s :: l2 ++ cands) s'.
Proof.
  revert l1 l2 s.
  induction cands as [|c cands IH]; intros l1 l2 s H1 H2.
  - exists s. split; [reflexivity|].
    exists l1, l2. rewrite app_nil_r. auto.
  - unfold scan. simpl. rewrite scan_step_Fin.
    destruct (Rlt_dec (split_gain y s) (split_gain y c)) as [Hlt|Hge].
    + destruct (IH (l1 ++ s :: l2) [] c) as [s' [Hscan Hfm]].
      * apply Forall_app. split.
        -- eapply Forall_impl; [|exact H1]. simpl. intros. lra.
        -- constructor; [exact Hlt|].
           eapply Forall_impl; [|exact H2]. simpl. intros. lra.
      * constructor.
      * exists s'. split; [exact Hscan|].
        simpl in Hfm. rewrite <- app_assoc in Hfm. simpl in Hfm. exact Hfm.
    + destruct (IH l1 (l2 ++ [c]) s) as [s' [Hscan Hfm]].
      * exact H1.
      * apply Forall_app. split; [exact H2|]. constructor; [lra|constructor].
      * exists s'. split; [exact Hscan|].
        rewrite <- app_assoc in Hfm. simpl in Hfm. exact Hfm.
Qed.

Lemma scan_first_maximal (y : list label) (c : split) (cands : list split) :
  exists s,
    scan y (c :: cands) (NegInf, None) = (Fin (split_gain y s), Some s)
    /\ first_maximal y (c :: cands) s.
Proof.
  destruct (scan_invariant y cands [] [] c) as [s [Hscan Hfm]];
    try constructor.
  exists s. split; [|exact Hfm].
  unfold scan in *. simpl. rewrite scan_step_NegInf. exact Hscan.
Qed.

(** ** The order of the scan *)

Lemma StronglySorted_app (A : Type) (R : A -> A -> Prop) (l1 l2 : list A) :
  StronglySorted R l1 -> StronglySorted R l2 ->
  (forall a b, In a l1 -> In b l2 -> R a b) ->
  StronglySorted R (l1 ++ l2).
Proof.
  induction 1 as [|h t Hs IH Hall]; intros H2 Hcross; simpl.
  - exact H2.
  - constructor.
    + apply IH; [exact H2|]. intros. apply Hcross; simpl; auto.
    + apply Forall_app. split; [exact Hall|].
      apply Forall_forall. intros. apply Hcross; simpl; auto.
Qed.

Lemma feature_candidates_sorted (X : matrix) (y : list label) (f : nat)
    (ts : list Z) :
  StronglySorted Z.lt ts ->
  StronglySorted scan_before (map (candidate X y f) ts).
Proof.
  induction 1 as [|h t Hs IH Hall]; simpl.
  - constructor.
  - constructor; [exact IH|].
    apply Forall_forall. intros s Hs'.
    apply in_map_iff in Hs'. destruct Hs' as [t' [<- Hin]].
    right. simpl. split; [reflexivity|].
    rewrite Forall_forall in Hall. auto.
Qed.

Lemma candidates_from_sorted (X : matrix) (y : list label) (n start : nat) :
  StronglySorted scan_before
    (flat_map
       (fun f => map (candidate X y f) (np_unique_Z (column f X)))
       (seq start n))
  /\ forall s,
       In s (flat_map
               (fun f => map (candidate X y f) (np_unique_Z (column f X)))
               (seq start n)) ->
       start <= split_feature_idx s.
Proof.
  revert start. induction n as [|n IH]; intros start; simpl.
  - split; [constructor|contradiction].
  - destruct (IH (S start)) as [Hsorted Hlow]. split.
    + apply StronglySorted_app.
      * apply feature_candidates_sorted, np_unique_Z_sorted.
      * exact Hsorted.
      * intros a b Ha Hb. left.
        apply in_map_iff in Ha. destruct Ha as [t [<- _]]. simpl.
        specialize (Hlow _ Hb). lia.
    + intros s Hs. apply in_app_or in Hs. destruct Hs as [Hs|Hs].
      * apply in_map_iff in Hs. destruct Hs as [t [<- _]]. simpl. lia.
      * specialize (Hlow _ Hs). lia.
Qed.

Lemma candidates_sorted (X : matrix) (y : list label) :
  StronglySorted scan_before (candidates X y).
Proof. apply candidates_from_sorted. Qed.

(** ** The split search always records a split *)

Lemma candidates_not_nil (X : matrix) (y : list label) :
  X <> [] -> 0 < num_features X -> candidates X y <> [].
Proof.
  intros HX Hf. unfold candidates.
  destruct (num_features X) as [|n]; [lia|].
  simpl. intros Happ. apply app_eq_nil in Happ. destruct Happ as [Hmap _].
  apply map_eq_nil in Hmap. revert Hmap.
  apply unique_not_nil. unfold column.
  destruct X; [congruence|discriminate].
Qed.

Lemma best_split_exists (X : matrix) (y : list label) :
  X <> [] -> 0 < num_features X -> exists s, best_split X y = Some s.
Proof.
  intros HX Hf.
  destruct (candidates X y) as [|c rest] eqn:Hc.
  - exfalso. revert Hc. apply candidates_not_nil; assumption.
  - destruct (scan_first_maximal y c rest) as [s [Hscan _]].
    exists s. unfold best_split. rewrite Hc, Hscan. reflexivity.
Qed.

Lemma build_tree_split_branch (md : option nat) (fuel : nat) (X : matrix)
    (y : list label) (depth : nat) (s : split) :
  length (np_unique y) <> 1 ->
  X <> [] ->
  depth_reached md depth = false ->
  best_split X y = Some s ->
  build_tree md (S fuel) X y depth
  = (XL <- take_rows X (left_y s) ;;
     left_tree <- build_tree md fuel XL (left_y s) (S depth) ;;
     XR <- take_rows X (right_y s) ;;
     right_tree <- build_tree md fuel XR (right_y s) (S depth) ;;
     Ok (Internal (split_feature_idx s) (split_threshold s)
           left_tree right_tree)).
Proof.
  intros Hpure HX Hdepth Hbest. simpl.
  apply Nat.eqb_neq in Hpure. rewrite Hpure.
  destruct X as [|x X']; [congruence|].
  simpl. rewrite Hdepth. simpl.
  rewrite Hbest. reflexivity.
Qed.

(** C10: whenever the builder reaches the loop with at least one sample and
    at least one feature, the first candidate is compared against minus
    infinity and recorded with a finite gain, the search ends with a recorded
    split, and the builder continues with the two recursive calls: the
    [best_split is None] fallback is not taken. *)
Theorem split_search_always_records (X : matrix) (y : list label) :
  X <> [] ->
  0 < num_features X ->
  exists c rest s,
    candidates X y = c :: rest
    /\ scan_step y (NegInf, None) c = (Fin (split_gain y c), Some c)
    /\ best_split X y = Some s
    /\ forall md fuel depth,
         length (np_unique y) <> 1 ->
         depth_reached md depth = false ->
         build_tree md (S fuel) X y depth
         = (XL <- take_rows X (left_y s) ;;
            left_tree <- build_tree md fuel XL (left_y s) (S depth) ;;
            XR <- take_rows X (right_y s) ;;
            right_tree <- build_tree md fuel XR (right_y s) (S depth) ;;
            Ok (Internal (split_feature_idx s) (split_threshold s)
                  left_tree right_tree)).
Proof.
  intros HX Hf.
  destruct (candidates X y) as [|c rest] eqn:Hc.
  - exfalso. revert Hc. apply candidates_not_nil; assumption.
  - destruct (scan_first_maximal y c rest) as [s [Hscan _]].
    assert (Hbest : best_split X y = Some s).
    { unfold best_split. rewrite Hc, Hscan. reflexivity. }
    exists c, rest, s. repeat split; try assumption.
    intros md fuel depth Hpure Hdepth.
    apply build_tree_split_branch; assumption.
Qed.

(** ** Prediction *)

Lemma routes_functional (x : row) (t : tree) (c c' : label) :
  routes x t c -> routes x t c' -> c = c'.
Proof.
  induction 1 as [c|f th l r v c Hv Hle _ IH|f th l r v c Hv Hlt _ IH];
    intros H'; inversion H'; subst; try reflexivity;
    try (apply IH; assumption);
    match goal with
    | H1 : nth_error x f = Some ?a, H2 : nth_error x f = Some ?b |- _ =>
        rewrite H1 in H2; injection H2 as ->; lia
    end.
Qed.

Lemma predict_node_routes (M : nat) (x : row) (t : tree) :
  features_below M t -> M <= length x ->
  exists c, predict_node x t = Ok c /\ routes x t c.
Proof.
  intros Ht Hx. induction t as [c|f th l IHl r IHr]; simpl in *.
  - exists c. split; [reflexivity|constructor].
  - destruct Ht as [Hf [Hl Hr]].
    destruct (nth_error x f) as [v|] eqn:Hv.
    + destruct (Z.leb_spec v th).
      * destruct (IHl Hl) as [c [Hc Hroute]].
        exists c. split; [exact Hc|]. eapply routes_left; eassumption.
      * destruct (IHr Hr) as [c [Hc Hroute]].
        exists c. split; [exact Hc|]. eapply routes_right; eassumption.
    + apply nth_error_None in Hv. lia.
Qed.

(** Trees produced by the builder only test columns of the training
    matrix. *)

Lemma candidates_feature_idx (X : matrix) (y : list label) (s : split) :
  In s (candidates X y) -> split_feature_idx s < num_features X.
Proof.
  unfold candidates. intros Hin. apply in_flat_map in Hin.
  destruct Hin as [f [Hf Hs]]. apply in_seq in Hf.
  apply in_map_iff in Hs. destruct Hs as [t [<- _]]. simpl. lia.
Qed.

Lemma best_split_in_candidates (X : matrix) (y : list label) (s : split) :
  best_split X y = Some s -> In s (candidates X y).
Proof.
  unfold best_split. destruct (candidates X y) as [|c cands]; [discriminate|].
  destruct (scan_first_maximal y c cands) as [s' [Hscan [l1 [l2 [Heq _]]]]].
  rewrite Hscan. cbn [snd]. intros H. injection H as <-.
  rewrite Heq. apply in_elt.
Qed.

Lemma take_rows_Forall (P : row -> Prop) (X : matrix) (idx : list nat)
    (XL : matrix) :
  Forall P X -> take_rows X idx = Ok XL -> Forall P XL.
Proof.
  intros HX. revert XL. induction idx as [|i idx IH]; intros XL; simpl.
  - intros H. injection H as <-. constructor.
  - destruct (nth_error X i) as [r|] eqn:Hr; [|discriminate].
    destruct (take_rows X idx) as [rows|e]; [|discriminate].
    simpl. intros H. injection H as <-.
    constructor; [|apply IH; reflexivity].
    rewrite Forall_forall in HX. apply HX. eapply nth_error_In. exact Hr.
Qed.

Lemma majority_leaf_features (M : nat) (y : list label) (t : tree) :
  majority_leaf y = Ok t -> features_below M t.
Proof.
  unfold majority_leaf. destruct (argmax (bincount y)); [|discriminate].
  simpl. intros H. injection H as <-. exact I.
Qed.

(** A tree built from an [M] column matrix only tests columns below [M]. *)
Lemma build_tree_features_below (md : option nat) (M fuel : nat) (X : matrix)
    (y : list label) (depth : nat) (t : tree) :
  Forall (fun r => length r = M) X ->
  build_tree md fuel X y depth = Ok t ->
  features_below M t.
Proof.
  revert X y depth t. induction fuel as [|fuel IH]; intros X y depth t HX.
  - discriminate.
  - simpl.
    destruct (length (np_unique y) =? 1).
    { intros H. injection H as <-. exact I. }
    destruct ((num_samples X =? 0) || depth_reached md depth) eqn:Hstop.
    { apply majority_leaf_features. }
    destruct (best_split X y) as [s|] eqn:Hs; [|apply majority_leaf_features].
    destruct (take_rows X (left_y s)) as [XL|e] eqn:HL; [|discriminate].
    cbn [bind].
    destruct (build_tree md fuel XL (left_y s) (S depth)) as [lt|e] eqn:Hlt;
      [|discriminate].
    cbn [bind].
    destruct (take_rows X (right_y s)) as [XR|e] eqn:HR; [|discriminate].
    cbn [bind].
    destruct (build_tree md fuel XR (right_y s) (S depth)) as [rt|e] eqn:Hrt;
      [|discriminate].
    cbn [bind]. intros H. injection H as <-. simpl. repeat split.
    + apply best_split_in_candidates, candidates_feature_idx in Hs.
      destruct X as [|r X']; [simpl in Hs; lia|].
      simpl in Hs. inversion HX; subst. exact Hs.
    + eapply IH; [|exact Hlt]. eapply take_rows_Forall; eassumption.
    + eapply IH; [|exact Hrt]. eapply take_rows_Forall; eassumption.
Qed.

(** C7: on a fitted model whose tree only tests columns below [M], [predict]
    on [K] rows of [M] columns returns [K] labels, the i-th of which is the
    one (and only) label the traversal of the tree assigns to the i-th
    row. *)
Theorem predict_one_label_per_row (md : option nat) (t : tree) (M : nat)
    (X : matrix) :
  features_below M t ->
  Forall (fun x => length x = M) X ->
  exists labels,
    predict {| max_depth := md; fitted := Some t |} X = Ok labels
    /\ length labels = length X
    /\ Forall2 (fun x c => predict_node x t = Ok c
                           /\ routes x t c
                           /\ forall c', routes x t c' -> c' = c)
         X labels.
Proof.
  intros Ht HX. unfold predict. simpl.
  induction HX as [|x X' Hx _ IH].
  - exists []. repeat split. constructor.
  - destruct IH as [labels [Hp [Hlen Hall]]].
    destruct (predict_node_routes M x t Ht) as [c [Hc Hroute]]; [lia|].
    exists (c :: labels). simpl. rewrite Hc. simpl. rewrite Hp. simpl.
    repeat split.
    + f_equal. exact Hlen.
    + constructor; [|exact Hall].
      repeat split; try assumption.
      intros c' Hc'. eapply routes_functional; eassumption.
Qed.

(** C8, as the code has it: before any [fit], [predict] succeeds with the
    empty list on a batch without rows, and raises [TypeError] (from
    ['class' in None]) on any batch with a row. *)
Theorem predict_before_fit (md : option nat) (X : matrix) :
  predict (init md) X
  = match X with
    | [] => Ok []
    | _ :: _ => Raise TypeError
    end.
Proof. destruct X; reflexivity. Qed.

(** C8, refuted as stated: on an unfitted model the call on an empty batch
    does not fail at all, and on a one row batch the condition raised is
    [TypeError]. *)
Lemma predict_before_fit_counterexample :
  ~ (exists e, predict (init None) [] = Raise e)
  /\ predict (init None) [[1%Z]] = Raise TypeError.
Proof.
  split; [|reflexivity].
  intros [e He]. discriminate He.
Qed.

(** ** Computing the winner of a scan *)

Lemma scan_keep (y : list label) (s : split) (l2 : list split) :
  Forall (fun c => (split_gain y c <= split_gain y s)%R) l2 ->
  scan y l2 (Fin (split_gain y s), Some s) = (Fin (split_gain y s), Some s).
Proof.
  induction 1 as [|c l2 Hc _ IH].
  - reflexivity.
  - unfold scan in *. simpl. rewrite scan_step_Fin.
    destruct (Rlt_dec (split_gain y s) (split_gain y c)); [lra|exact IH].
Qed.

Lemma scan_reach (y : list label) (s : split) (l1 l2 : list split)
    (st : gain * option split) :
  gain_below (fst st) (split_gain y s) ->
  Forall (fun c => (split_gain y c < split_gain y s)%R) l1 ->
  Forall (fun c => (split_gain y c <= split_gain y s)%R) l2 ->
  scan y (l1 ++ s :: l2) st = (Fin (split_gain y s), Some s).
Proof.
  intros Hst H1 H2. revert st Hst.
  induction H1 as [|c l1 Hc _ IH]; intros [g o] Hst; simpl in Hst.
  - unfold scan. simpl.
    assert (Hstep : scan_step y (g, o) s = (Fin (split_gain y s), Some s)).
    { destruct g as [|b]; [reflexivity|].
      rewrite scan_step_Fin.
      destruct (Rlt_dec b (split_gain y s)); [reflexivity|contradiction]. }
    rewrite Hstep. apply scan_keep. exact H2.
  - unfold scan in *. simpl. apply IH.
    destruct g as [|b].
    + rewrite scan_step_NegInf. simpl. exact Hc.
    + rewrite scan_step_Fin.
      destruct (Rlt_dec b (split_gain y c)); simpl; assumption.
Qed.

Lemma best_split_intro (X : matrix) (y : list label) (s : split) :
  first_maximal y (candidates X y) s -> best_split X y = Some s.
Proof.
  intros [l1 [l2 [Heq [H1 H2]]]]. unfold best_split.
  rewrite Heq, (scan_reach y s l1 l2 (NegInf, None)); simpl; auto.
Qed.

(** ** Facts about the logarithm *)

Open Scope R_scope.

Lemma eps_pos : 0 < eps.
Proof. unfold eps. apply Rinv_0_lt_compat. lra. Qed.

Lemma eps_small : eps < / 1000.
Proof. unfold eps. apply Rinv_lt_contravar; lra. Qed.

Lemma ln_2_pos : 0 < ln 2.
Proof. rewrite <- ln_1. apply ln_increasing; lra. Qed.

Lemma log2_neg (x : R) : 0 < x -> x < 1 -> log2 x < 0.
Proof.
  intros H0 H1. unfold log2, Rdiv.
  assert (Hln : ln x < 0) by (rewrite <- ln_1; apply ln_increasing; lra).
  assert (0 < / ln 2) by (apply Rinv_0_lt_compat, ln_2_pos).
  nra.
Qed.

Lemma log2_pos (x : R) : 1 < x -> 0 < log2 x.
Proof.
  intros H1. unfold log2, Rdiv.
  assert (Hln : 0 < ln x) by (rewrite <- ln_1; apply ln_increasing; lra).
  assert (0 < / ln 2) by (apply Rinv_0_lt_compat, ln_2_pos).
  nra.
Qed.

Close Scope R_scope.

(** The gains of a concrete scan are compared after evaluating the counting
    part of the entropies; the logarithms left over are only known by their
    signs. *)
Ltac eval_gains :=
  unfold split_gain, information_gain, entropy, class_probs, bincount;
  simpl.

Ltac log_signs :=
  pose proof eps_pos; pose proof eps_small;
  repeat match goal with
    | |- context [log2 (?a / ?a + eps)] => replace (a / a)%R with 1%R by lra
    end;
  repeat match goal with
    | |- context [log2 (?p + eps)] =>
        lazymatch goal with
        | _ : (0 < log2 (p + eps))%R |- _ => fail
        | _ : (log2 (p + eps) < 0)%R |- _ => fail
        | _ => first
            [ assert (0 < log2 (p + eps))%R by (apply log2_pos; lra)
            | assert (log2 (p + eps) < 0)%R by (apply log2_neg; lra) ]
        end
    end.

(** ** The worked example: X = [[1],[2],[3],[4]], y = [0,0,1,1] *)

Lemma worked_best_split : best_split worked_X worked_y = Some worked_split.
Proof.
  apply best_split_intro.
  exists [ {| split_feature_idx := 0; split_threshold := 1%Z;
              left_y := [0]; right_y := [0; 1; 1] |} ],
         [ {| split_feature_idx := 0; split_threshold := 3%Z;
              left_y := [0; 0; 1]; right_y := [1] |};
           {| split_feature_idx := 0; split_threshold := 4%Z;
              left_y := [0; 0; 1; 1]; right_y := [] |} ].
  split; [reflexivity|].
  split.
  - apply Forall_cons; [|apply Forall_nil].
    unfold worked_y, worked_split. eval_gains. log_signs. lra.
  - apply Forall_cons; [|apply Forall_cons; [|apply Forall_nil]];
      unfold worked_y, worked_split; eval_gains; log_signs; lra.
Qed.

Lemma depth_reached_root (md : option nat) : depth_reached md 0 = false.
Proof. destruct md as [[|m]|]; reflexivity. Qed.

Lemma worked_build_tree (md : option nat) (fuel : nat) :
  build_tree md (S (S fuel)) worked_X worked_y 0 = Ok worked_tree.
Proof.
  rewrite (build_tree_split_branch md (S fuel) worked_X worked_y 0 worked_split).
  - reflexivity.
  - discriminate.
  - discriminate.
  - apply depth_reached_root.
  - apply worked_best_split.
Qed.

Lemma worked_fit (md : option nat) (fuel : nat) :
  fit (S (S fuel)) (init md) worked_X worked_y
  = Ok {| max_depth := md; fitted := Some worked_tree |}.
Proof.
  unfold fit. cbn [max_depth init]. rewrite worked_build_tree. reflexivity.
Qed.

(** C3: fitting the worked example yields the tree that tests feature 0
    against threshold 2 with the leaves 0 and 1, and predicting the rows [1]
    and [4] with the fitted model gives [0, 1]. *)
Theorem worked_example (fuel : nat) :
  fit (S (S fuel)) (init None) worked_X worked_y
  = Ok {| max_depth := None;
          fitted := Some (Internal 0 2 (Leaf 0) (Leaf 1)) |}
  /\ (m <- fit (S (S fuel)) (init None) worked_X worked_y ;;
      predict m [[1]; [4]]%Z) = Ok [0; 1].
Proof.
  unfold fit. simpl max_depth. rewrite worked_build_tree. split; reflexivity.
Qed.

(** ** The majority label: [np.bincount(y).argmax()] *)

Lemma argmax_from_spec (v : nat -> nat) (n i bi : nat) :
  bi < i ->
  (forall j, j < i -> v j <= v bi) ->
  (forall j, j < bi -> v j < v bi) ->
  let r := argmax_from i bi (v bi) (map v (seq i n)) in
  r < i + n
  /\ (forall j, j < i + n -> v j <= v r)
  /\ (forall j, j < r -> v j < v r).
Proof.
  revert i bi. induction n as [|n IH]; intros i bi Hbi Hle Hlt; simpl.
  - repeat split.
    + lia.
    + intros j Hj. apply Hle. lia.
    + exact Hlt.
  - destruct (Nat.ltb_spec (v bi) (v i)) as [Hnew|Hold].
    + destruct (IH (S i) i) as [Hr [Hmax Hfirst]].
      * lia.
      * intros j Hj. destruct (Nat.eq_dec j i) as [->|Hne]; [lia|].
        assert (v j <= v bi) by (apply Hle; lia). lia.
      * intros j Hj. assert (v j <= v bi) by (apply Hle; lia). lia.
      * repeat split.
        -- lia.
        -- intros j Hj. apply Hmax. lia.
        -- exact Hfirst.
    + destruct (IH (S i) bi) as [Hr [Hmax Hfirst]].
      * lia.
      * intros j Hj. destruct (Nat.eq_dec j i) as [->|Hne]; [lia|].
        apply Hle. lia.
      * exact Hlt.
      * repeat split.
        -- lia.
        -- intros j Hj. apply Hmax. lia.
        -- exact Hfirst.
Qed.

Lemma list_max_in_le (y : list nat) (x : nat) : In x y -> x <= list_max y.
Proof.
  intros Hin. pose proof (list_max_le y (list_max y)) as [Hall _].
  specialize (Hall (Nat.le_refl _)). rewrite Forall_forall in Hall. auto.
Qed.

Lemma count_occ_above_max (y : list nat) (j : nat) :
  list_max y < j -> count_occ Nat.eq_dec y j = 0.
Proof.
  intros Hj. apply count_occ_not_In. intros Hin.
  apply list_max_in_le in Hin. lia.
Qed.

Lemma argmax_bincount (y : list label) :
  y <> [] ->
  exists c, argmax (bincount y) = Ok c /\ is_majority y c.
Proof.
  intros Hy. destruct y as [|a y']; [congruence|].
  set (y := a :: y') in *. set (v := count_occ Nat.eq_dec y).
  unfold bincount. fold y. cbn [seq map argmax]. fold v.
  destruct (argmax_from_spec v (list_max y) 1 0) as [Hr [Hmax Hfirst]].
  - lia.
  - intros j Hj. assert (j = 0) by lia. subst. lia.
  - intros j Hj. lia.
  - eexists. split; [reflexivity|].
    set (c := argmax_from 1 0 (v 0) (map v (seq 1 (list_max y)))) in *.
    assert (Hall : forall j, v j <= v c).
    { intros j. destruct (Nat.le_gt_cases j (list_max y)) as [Hj|Hj].
      - apply Hmax. lia.
      - unfold v at 1. rewrite count_occ_above_max by exact Hj. lia. }
    repeat split.
    + exact Hall.
    + exact Hfirst.
    + apply (count_occ_In Nat.eq_dec). specialize (Hall a).
      assert (0 < v a).
      { unfold v. apply (count_occ_In Nat.eq_dec). left. reflexivity. }
      unfold v in *. lia.
Qed.

Lemma is_majority_pure (y : list label) (c c' : label) :
  np_unique y = [c] -> is_majority y c' -> c' = c.
Proof.
  intros Hu [_ [_ Hin]].
  apply np_unique_in in Hin. rewrite Hu in Hin.
  destruct Hin as [<-|[]]. reflexivity.
Qed.

Lemma pure_not_nil (y : list label) : length (np_unique y) = 1 -> y <> [].
Proof. intros H ->. discriminate H. Qed.

Lemma majority_leaf_pure (y : list label) :
  length (np_unique y) = 1 ->
  majority_leaf y = Ok (Leaf (hd 0 (np_unique y))).
Proof.
  intros Hlen.
  destruct (argmax_bincount y (pure_not_nil y Hlen)) as [c [Hc Hmaj]].
  unfold majority_leaf. rewrite Hc. simpl.
  destruct (np_unique y) as [|u [|? ?]] eqn:Hu; try discriminate Hlen.
  simpl. rewrite (is_majority_pure y u c); auto.
Qed.

(** At or below the configured depth the builder answers with the majority
    leaf, whether the node is pure or not. *)
Lemma build_tree_at_limit (md : option nat) (fuel : nat) (X : matrix)
    (y : list label) (depth : nat) :
  depth_reached md depth = true ->
  build_tree md (S fuel) X y depth = majority_leaf y.
Proof.
  intros Hd. simpl.
  destruct (Nat.eqb_spec (length (np_unique y)) 1) as [Hpure|Hmixed].
  - symmetry. apply majority_leaf_pure. exact Hpure.
  - rewrite Hd, orb_true_r. reflexivity.
Qed.

Lemma build_tree_depth_limit_leaf (md : option nat) (fuel : nat) (X : matrix)
    (y : list label) (depth : nat) :
  depth_reached md depth = true ->
  y <> [] ->
  exists c,
    build_tree md (S fuel) X y depth = Ok (Leaf c) /\ is_majority y c.
Proof.
  intros Hd Hy. rewrite build_tree_at_limit by exact Hd.
  destruct (argmax_bincount y Hy) as [c [Hc Hmaj]].
  exists c. unfold majority_leaf. rewrite Hc. split; [reflexivity|exact Hmaj].
Qed.

(** ** What the recursive calls receive *)

Lemma out_of_range_best_split :
  best_split out_of_range_X out_of_range_y
  = Some {| split_feature_idx := 0; split_threshold := 1;
            left_y := [0]; right_y := [5] |}.
Proof.
  apply best_split_intro.
  exists [],
         [ {| split_feature_idx := 0; split_threshold := 2%Z;
              left_y := [0; 5]; right_y := [] |} ].
  split; [reflexivity|].
  split; [apply Forall_nil|].
  apply Forall_cons; [|apply Forall_nil].
  unfold out_of_range_y. eval_gains. log_signs. lra.
Qed.

(** C1, on the code: the builder indexes the feature matrix with the label
    arrays of the winning split.  On the worked example the left call
    receives the rows [[1],[1]] (row 0 twice, the labels being [0,0]) where
    the rows at most 2 are [[1],[2]], and the right call receives [[2],[2]]
    where the remaining rows are [[3],[4]]; on X = [[1],[2]], y = [0,5] the
    right call is never made, because label 5 is not a row number. *)
Theorem children_are_indexed_by_labels (md : option nat) (fuel : nat) :
  best_split worked_X worked_y = Some worked_split
  /\ take_rows worked_X (left_y worked_split) = Ok [[1]; [1]]%Z
  /\ rows_le worked_X 0 2 = [[1]; [2]]%Z
  /\ take_rows worked_X (right_y worked_split) = Ok [[2]; [2]]%Z
  /\ rows_gt worked_X 0 2 = [[3]; [4]]%Z
  /\ build_tree md (S fuel) worked_X worked_y 0
     = (left_tree <- build_tree md fuel [[1]; [1]]%Z [0; 0] 1 ;;
        right_tree <- build_tree md fuel [[2]; [2]]%Z [1; 1] 1 ;;
        Ok (Internal 0 2 left_tree right_tree))
  /\ fit (S (S fuel)) (init md) out_of_range_X out_of_range_y
     = Raise IndexError.
Proof.
  split; [apply worked_best_split|].
  repeat (split; [reflexivity|]).
  split.
  - rewrite (build_tree_split_branch md fuel worked_X worked_y 0 worked_split).
    + reflexivity.
    + discriminate.
    + discriminate.
    + apply depth_reached_root.
    + apply worked_best_split.
  - unfold fit. simpl max_depth.
    rewrite (build_tree_split_branch md (S fuel) out_of_range_X out_of_range_y
               0 _ ltac:(discriminate) ltac:(discriminate)
               (depth_reached_root md) out_of_range_best_split).
    reflexivity.
Qed.

(** ** A node whose only feature is constant *)

Lemma constant_best_split : best_split constant_X constant_y = Some constant_split.
Proof. reflexivity. Qed.

Lemma constant_recursion (fuel depth : nat) :
  build_tree None fuel constant_X constant_y depth = Raise RecursionError.
Proof.
  revert depth. induction fuel as [|fuel IH]; intros depth.
  - reflexivity.
  - rewrite (build_tree_split_branch None fuel constant_X constant_y depth
               constant_split ltac:(discriminate) ltac:(discriminate)
               eq_refl constant_best_split).
    simpl take_rows. simpl bind at 1.
    change [[5%Z]; [5%Z]] with constant_X.
    change (left_y constant_split) with constant_y.
    rewrite IH. reflexivity.
Qed.

(** C2, on the code: for the two sample node X = [[5],[5]], y = [0,1] the
    only feature is constant, yet its value 5 (the maximum of the column) is
    the one threshold evaluated, and it is returned as the winning split,
    with an empty right side, instead of a "no split found" result.  The
    builder then recurses on an unchanged left side until the interpreter
    stack is used up. *)
Theorem constant_feature_is_split :
  np_unique_Z (column 0 constant_X) = [5%Z]
  /\ candidates constant_X constant_y = [constant_split]
  /\ split_threshold constant_split = 5%Z
  /\ right_y constant_split = []
  /\ best_split constant_X constant_y = Some constant_split
  /\ forall fuel, fit fuel (init None) constant_X constant_y
                  = Raise RecursionError.
Proof.
  repeat (split; [reflexivity|]).
  intros fuel. unfold fit. simpl max_depth.
  rewrite constant_recursion. reflexivity.
Qed.

(** C5, on the code: called with an empty sample subset the builder raises
    [ValueError] (the [argmax] of an empty [bincount]) instead of returning
    a leaf; [fit] with [max_depth = 1] reaches that call on
    X = [[5],[5]], y = [0,1] through the empty right side of the winning
    split. *)
Theorem empty_subset_raises :
  (forall md fuel depth, build_tree md (S fuel) [] [] depth = Raise ValueError)
  /\ forall fuel,
       fit (S (S fuel)) (init (Some 1)) constant_X constant_y
       = Raise ValueError.
Proof.
  split.
  - reflexivity.
  - intros fuel. unfold fit. simpl max_depth.
    rewrite (build_tree_split_branch (Some 1) (S fuel) constant_X constant_y 0
               constant_split ltac:(discriminate) ltac:(discriminate)
               eq_refl constant_best_split).
    reflexivity.
Qed.

(** ** [max_depth = 1] (and [max_depth = 0]) *)

(** C9, refuted as stated: on the worked example the global majority label
    is 0, but with [max_depth = 1] as well as with [max_depth = 0] the
    fitted model predicts 1 for the row [4]. *)
Lemma global_majority_counterexample :
  ~ (exists md,
        (md = Some 0 \/ md = Some 1)
        /\ (m <- fit 1000 (init md) worked_X worked_y ;; predict m [[4]]%Z)
           = (c <- argmax (bincount worked_y) ;; Ok [c])).
Proof.
  intros [md [_ Heq]].
  rewrite (worked_fit md 998) in Heq.
  discriminate Heq.
Qed.

Lemma split_search_always_records_witness :
  exists c rest s,
    candidates worked_X worked_y = c :: rest
    /\ scan_step worked_y (NegInf, None) c = (Fin (split_gain worked_y c), Some c)
    /\ best_split worked_X worked_y = Some s
    /\ forall md fuel depth,
         length (np_unique worked_y) <> 1 ->
         depth_reached md depth = false ->
         build_tree md (S fuel) worked_X worked_y depth
         = (XL <- take_rows worked_X (left_y s) ;;
            left_tree <- build_tree md fuel XL (left_y s) (S depth) ;;
            XR <- take_rows worked_X (right_y s) ;;
            right_tree <- build_tree md fuel XR (right_y s) (S depth) ;;
            Ok (Internal (split_feature_idx s) (split_threshold s)
                  left_tree right_tree)).
Proof.
  apply (split_search_always_records worked_X worked_y).
  - discriminate.
  - simpl. lia.
Defined.

Lemma predict_one_label_per_row_witness :
  exists labels,
    predict {| max_depth := None; fitted := Some worked_tree |} [[1]; [4]]%Z
    = Ok labels
    /\ length labels = 2
    /\ Forall2 (fun x c => predict_node x worked_tree = Ok c
                           /\ routes x worked_tree c
                           /\ forall c', routes x worked_tree c' -> c' = c)
         [[1]; [4]]%Z labels.
Proof.
  apply (predict_one_label_per_row None worked_tree 1 [[1]; [4]]%Z).
  - simpl. repeat split; lia.
  - repeat constructor.
Defined.

(** ** Counting labels *)

Lemma list_sum_map_add (A : Type) (f g : A -> nat) (l : list A) :
  list_sum (map (fun i => f i + g i) l) = list_sum (map f l) + list_sum (map g l).
Proof. induction l; simpl; lia. Qed.

Lemma list_sum_indicator (a start n : nat) :
  start <= a < start + n ->
  list_sum (map (fun i => if Nat.eq_dec a i then 1 else 0) (seq start n)) = 1.
Proof.
  revert start. induction n as [|n IH]; intros start Ha; [lia|].
  simpl. destruct (Nat.eq_dec a start) as [->|Hne].
  - assert (Hz : forall m s, start < s ->
               list_sum (map (fun i => if Nat.eq_dec start i then 1 else 0)
                           (seq s m)) = 0).
    { induction m as [|m IHm]; intros s Hs; simpl; [reflexivity|].
      destruct (Nat.eq_dec start s); [lia|]. apply IHm. lia. }
    rewrite (Hz n (S start)) by lia. reflexivity.
  - simpl. apply IH. lia.
Qed.

Lemma count_occ_cons_indicator (a : nat) (y : list nat) (i : nat) :
  count_occ Nat.eq_dec (a :: y) i
  = (if Nat.eq_dec a i then 1 else 0) + count_occ Nat.eq_dec y i.
Proof. simpl. destruct (Nat.eq_dec a i); reflexivity. Qed.

Lemma counts_sum_to_length (y : list nat) (m : nat) :
  (forall x, In x y -> x <= m) ->
  list_sum (map (count_occ Nat.eq_dec y) (seq 0 (S m))) = length y.
Proof.
  induction y as [|a y IH]; intros Hm.
  - clear Hm. induction (seq 0 (S m)); simpl; auto.
  - rewrite (map_ext _ _ (count_occ_cons_indicator a y)).
    rewrite list_sum_map_add, IH, list_sum_indicator.
    + reflexivity.
    + specialize (Hm a (or_introl eq_refl)). lia.
    + intros x Hx. apply Hm. right. exact Hx.
Qed.

Lemma bincount_not_nil (y : list label) :
  y <> [] ->
  bincount y = map (count_occ Nat.eq_dec y) (seq 0 (S (list_max y))).
Proof. destruct y; [congruence|reflexivity]. Qed.

Lemma bincount_sum (y : list label) : list_sum (bincount y) = length y.
Proof.
  destruct y as [|a y']; [reflexivity|].
  rewrite bincount_not_nil by discriminate. apply counts_sum_to_length.
  intros x Hx. apply list_max_in_le. exact Hx.
Qed.

Lemma bincount_nonzero (y : list label) :
  nonzero (bincount y) = length (np_unique y).
Proof.
  destruct (list_eq_dec Nat.eq_dec y []) as [->|Hy]; [reflexivity|].
  unfold nonzero. rewrite bincount_not_nil by exact Hy.
  rewrite filter_map_swap, length_map.
  apply Permutation_length, NoDup_Permutation.
  - apply NoDup_filter, seq_NoDup.
  - apply StronglySorted_lt_NoDup, np_unique_sorted.
  - intros x. rewrite filter_In, in_seq, np_unique_in, Nat.ltb_lt. split.
    + intros [_ H]. apply (count_occ_In Nat.eq_dec). lia.
    + intros H. split.
      * apply list_max_in_le in H. lia.
      * apply (count_occ_In Nat.eq_dec) in H. lia.
Qed.

Lemma bincount_entries (y : list label) (c : nat) :
  In c (bincount y) -> c <= length y.
Proof.
  destruct (list_eq_dec Nat.eq_dec y []) as [->|Hy]; [contradiction|].
  rewrite bincount_not_nil by exact Hy. intros Hin. apply in_map_iff in Hin.
  destruct Hin as [i [<- _]]. apply count_occ_bound.
Qed.

Lemma count_occ_all (y : list nat) (c : nat) :
  (forall x, In x y -> x = c) -> count_occ Nat.eq_dec y c = length y.
Proof.
  induction y as [|a y IH]; intros Hall; simpl; [reflexivity|].
  destruct (Nat.eq_dec a c) as [_|Hne].
  - f_equal. apply IH. intros x Hx. apply Hall. right. exact Hx.
  - exfalso. apply Hne, Hall. left. reflexivity.
Qed.

Lemma bincount_entries_pure (y : list label) (c : nat) :
  length (np_unique y) = 1 ->
  In c (bincount y) -> c = 0 \/ c = length y.
Proof.
  intros Hpure Hin.
  destruct (np_unique y) as [|u [|? ?]] eqn:Hu; try discriminate Hpure.
  assert (Hall : forall x, In x y -> x = u).
  { intros x Hx. apply np_unique_in in Hx. rewrite Hu in Hx.
    destruct Hx as [<-|[]]. reflexivity. }
  destruct (list_eq_dec Nat.eq_dec y []) as [->|Hy]; [contradiction|].
  rewrite bincount_not_nil in Hin by exact Hy. apply in_map_iff in Hin.
  destruct Hin as [i [<- _]].
  destruct (Nat.eq_dec i u) as [->|Hne].
  - right. apply count_occ_all. exact Hall.
  - left. apply count_occ_not_In. intros Hi. apply Hne, Hall, Hi.
Qed.

(** ** Bounds of the entropy *)

Open Scope R_scope.

Lemma ln_le_minus_1 (z : R) : 0 < z -> ln z <= z - 1.
Proof.
  intros Hz. pose proof (exp_ineq1_le (ln z)) as H.
  rewrite exp_ln in H by exact Hz. lra.
Qed.

Lemma ln_le_mono (x y : R) : 0 < x -> x <= y -> ln x <= ln y.
Proof.
  intros Hx [Hlt | Heq]; [|rewrite Heq; lra]. left. apply ln_increasing; assumption.
Qed.

Lemma log2_le_mono (x y : R) : 0 < x -> x <= y -> log2 x <= log2 y.
Proof.
  intros Hx Hxy. unfold log2, Rdiv.
  apply Rmult_le_compat_r.
  - left. apply Rinv_0_lt_compat, ln_2_pos.
  - apply ln_le_mono; assumption.
Qed.

Lemma entropy_terms (y : list label) :
  entropy y = - Rsum (map (term (length y)) (bincount y)).
Proof. unfold entropy, class_probs. rewrite map_map. reflexivity. Qed.

Lemma Rsum_map_le (f g : nat -> R) (cs : list nat) :
  (forall c, In c cs -> f c <= g c) ->
  Rsum (map f cs) <= Rsum (map g cs).
Proof.
  induction cs as [|c cs IH]; intros H; simpl.
  - lra.
  - assert (f c <= g c) by (apply H; left; reflexivity).
    assert (Rsum (map f cs) <= Rsum (map g cs)).
    { apply IH. intros. apply H. right. assumption. }
    lra.
Qed.

Lemma Rsum_map_scale (a : R) (cs : list nat) :
  Rsum (map (fun c => INR c * a) cs) = INR (list_sum cs) * a.
Proof.
  induction cs as [|c cs IH]; simpl.
  - lra.
  - rewrite IH, plus_INR. lra.
Qed.

Lemma prob_range (n c : nat) : (0 < n)%nat -> (c <= n)%nat ->
  0 <= INR c / INR n <= 1.
Proof.
  intros Hn Hc. apply lt_INR in Hn. apply le_INR in Hc. simpl in Hn.
  pose proof (pos_INR c).
  split.
  - apply Rmult_le_pos; [assumption|]. left. apply Rinv_0_lt_compat. assumption.
  - apply Rmult_le_reg_r with (INR n); [assumption|].
    unfold Rdiv. rewrite Rmult_assoc, Rinv_l by lra. lra.
Qed.

Lemma term_upper (n c : nat) : (0 < n)%nat -> (c <= n)%nat ->
  term n c <= INR c * (log2 (1 + eps) / INR n).
Proof.
  intros Hn Hc. destruct (prob_range n c Hn Hc) as [H0 H1].
  pose proof eps_pos.
  unfold term.
  assert (log2 (INR c / INR n + eps) <= log2 (1 + eps)).
  { apply log2_le_mono; lra. }
  replace (INR c * (log2 (1 + eps) / INR n)) with (INR c / INR n * log2 (1 + eps)).
  - apply Rmult_le_compat_l; assumption.
  - unfold Rdiv. ring.
Qed.

Lemma entropy_lower (y : list label) : y <> [] -> - log2 (1 + eps) <= entropy y.
Proof.
  intros Hy. rewrite entropy_terms.
  assert (Hn : (0 < length y)%nat) by (destruct y; [congruence|simpl; lia]).
  assert (Rsum (map (term (length y)) (bincount y)) <= log2 (1 + eps)); [|lra].
  eapply Rle_trans.
  - apply Rsum_map_le with (g := fun c => INR c * (log2 (1 + eps) / INR (length y))).
    intros c Hc. apply term_upper; [exact Hn|]. apply bincount_entries. exact Hc.
  - rewrite Rsum_map_scale, bincount_sum.
    apply lt_INR in Hn. simpl in Hn.
    right. field. lra.
Qed.

Lemma Rsum_gibbs (n : nat) (K : R) (cs : list nat) :
  Rsum (map (gibbs n K) cs)
  = INR (list_sum cs) * (log2 K / INR n - / INR n / ln 2)
    + INR (nonzero cs) * (/ K / ln 2).
Proof.
  induction cs as [|c cs IH].
  - simpl. lra.
  - cbn [map Rsum fold_right list_sum]. fold (Rsum (map (gibbs n K) cs)).
    rewrite IH, plus_INR. unfold gibbs at 1, nonzero. cbn [filter].
    generalize (log2 K / INR n - / INR n / ln 2) (/ K / ln 2). intros A B.
    change (fold_right Init.Nat.add 0%nat cs) with (list_sum cs).
    destruct (0 <? c)%nat; cbn [length]; [rewrite S_INR|]; ring.
Qed.

Lemma term_gibbs (n c : nat) (K : R) :
  (0 < n)%nat -> 1 <= K -> - term n c <= gibbs n K c.
Proof.
  intros Hn HK. unfold term, gibbs.
  apply lt_INR in Hn. simpl in Hn.
  pose proof ln_2_pos as H2. pose proof eps_pos as He.
  destruct (Nat.ltb_spec 0 c) as [Hc|Hc].
  - apply lt_INR in Hc. simpl in Hc.
    set (p := INR c / INR n).
    assert (Hp : 0 < p).
    { unfold p. apply Rmult_lt_0_compat; [lra|]. apply Rinv_0_lt_compat. lra. }
    set (z := / (K * (p + eps))).
    assert (Hden : 0 < K * (p + eps)) by (apply Rmult_lt_0_compat; lra).
    assert (Hz : 0 < z) by (apply Rinv_0_lt_compat; exact Hden).
    pose proof (ln_le_minus_1 z Hz) as Hln.
    unfold z in Hln at 1. rewrite ln_Rinv, ln_mult in Hln by lra.
    assert (Hpz : p * z <= / K).
    { unfold z. rewrite Rinv_mult.
      assert (HiK : 0 < / K) by (apply Rinv_0_lt_compat; lra).
      assert (Hq : p * / (p + eps) <= 1).
      { apply Rmult_le_reg_r with (p + eps); [lra|].
        rewrite Rmult_assoc, Rinv_l by lra. lra. }
      replace (p * (/ K * / (p + eps))) with (/ K * (p * / (p + eps))) by ring.
      rewrite <- (Rmult_1_r (/ K)) at 2.
      apply Rmult_le_compat_l; lra. }
    assert (Hmain : - p * ln (p + eps) <= p * ln K + / K - p) by nra.
    unfold log2.
    assert (Hi2 : 0 < / ln 2) by (apply Rinv_0_lt_compat; exact H2).
    replace (INR c * (ln K / ln 2 / INR n - / INR n / ln 2) + / K / ln 2)
      with ((p * ln K + / K - p) * / ln 2).
    + replace (- (p * (ln (p + eps) / ln 2))) with ((- p * ln (p + eps)) * / ln 2)
        by (unfold Rdiv; ring).
      apply Rmult_le_compat_r; lra.
    + unfold p, Rdiv. ring.
  - assert (c = 0)%nat by lia. subst c. simpl. lra.
Qed.

Lemma entropy_upper (y : list label) :
  y <> [] -> entropy y <= log2 (INR (length (np_unique y))).
Proof.
  intros Hy. rewrite entropy_terms.
  assert (Hn : (0 < length y)%nat) by (destruct y; [congruence|simpl; lia]).
  assert (Hk : (0 < length (np_unique y))%nat).
  { pose proof (unique_not_nil nat Nat.ltb Nat.eqb y Hy) as Hu.
    unfold np_unique. destruct (unique Nat.ltb Nat.eqb y); [congruence|simpl; lia]. }
  set (K := INR (length (np_unique y))).
  assert (HK : 1 <= K).
  { unfold K. apply le_INR in Hk. simpl in Hk. exact Hk. }
  assert (Hopp : forall l, - Rsum (map (term (length y)) l)
                           = Rsum (map (fun c => - term (length y) c) l)).
  { induction l as [|c l IH]; simpl; [lra|]. fold (Rsum (map (term (length y)) l)).
    fold (Rsum (map (fun c => - term (length y) c) l)). rewrite <- IH. lra. }
  rewrite Hopp.
  eapply Rle_trans.
  - apply Rsum_map_le with (g := gibbs (length y) K).
    intros c _. apply term_gibbs; assumption.
  - rewrite Rsum_gibbs, bincount_sum, bincount_nonzero. fold K.
    apply lt_INR in Hn. simpl in Hn. pose proof ln_2_pos.
    right. field. lra.
Qed.

Lemma term_pure (n c : nat) : (0 < n)%nat -> c = 0%nat \/ c = n ->
  term n c = INR c * (log2 (1 + eps) / INR n).
Proof.
  intros Hn [->| ->]; unfold term.
  - simpl. lra.
  - apply lt_INR in Hn. simpl in Hn.
    replace (INR n / INR n) with 1 by (field; lra). field. lra.
Qed.

Lemma entropy_pure (y : list label) :
  length (np_unique y) = 1%nat -> entropy y = - log2 (1 + eps).
Proof.
  intros Hpure. pose proof (pure_not_nil y Hpure) as Hy.
  assert (Hn : (0 < length y)%nat) by (destruct y; [congruence|simpl; lia]).
  rewrite entropy_terms. f_equal.
  rewrite (map_ext_in _ (fun c => INR c * (log2 (1 + eps) / INR (length y)))).
  - rewrite Rsum_map_scale, bincount_sum.
    apply lt_INR in Hn. simpl in Hn. field. lra.
  - intros c Hc. apply term_pure; [exact Hn|].
    apply bincount_entries_pure; assumption.
Qed.

(** C4, refuted as stated: the entropy of the label set [0, 0], which has a
    single distinct label, is negative; it is neither non-negative nor 0. *)
Lemma entropy_counterexample :
  ~ (0 <= entropy [0; 0]%nat
     /\ entropy [0; 0]%nat <= log2 (INR (length (np_unique [0; 0]%nat)))
     /\ (length (np_unique [0; 0]%nat) = 1%nat -> entropy [0; 0]%nat = 0)).
Proof.
  intros [Hnonneg _].
  rewrite entropy_pure in Hnonneg by reflexivity.
  pose proof eps_pos.
  assert (0 < log2 (1 + eps)) by (apply log2_pos; lra).
  lra.
Qed.

(** C4, as the code has it (the epsilon sits inside the logarithm): for a
    non-empty label set the entropy is at least [- log2 (1 + 1e-9)], a
    negative number, and at most [log2] of the number of distinct labels;
    for a single distinct label it is exactly [- log2 (1 + 1e-9)]. *)
Theorem entropy_bounds (y : list label) :
  y <> [] ->
  - log2 (1 + eps) <= entropy y <= log2 (INR (length (np_unique y)))
  /\ (length (np_unique y) = 1%nat -> entropy y = - log2 (1 + eps))
  /\ - log2 (1 + eps) < 0.
Proof.
  intros Hy. repeat split.
  - apply entropy_lower. exact Hy.
  - apply entropy_upper. exact Hy.
  - apply entropy_pure.
  - pose proof eps_pos.
    assert (0 < log2 (1 + eps)) by (apply log2_pos; lra).
    lra.
Qed.

Lemma entropy_bounds_witness :
  - log2 (1 + eps) <= entropy worked_y <= log2 (INR 2)
  /\ (length (np_unique worked_y) = 1%nat -> entropy worked_y = - log2 (1 + eps))
  /\ - log2 (1 + eps) < 0.
Proof.
  apply (entropy_bounds worked_y). discriminate.
Defined.

Close Scope R_scope.

(** * Further properties of the code *)

(** ** Boolean masks and candidate splits *)

Lemma select_partition (A : Type) (mask : list bool) (l : list A) :
  length mask = length l ->
  Permutation (select mask l ++ select (map negb mask) l) l.
Proof.
  revert l. induction mask as [|b mask IH]; intros [|a l] Hlen;
    try discriminate Hlen.
  - constructor.
  - injection Hlen as Hlen. specialize (IH l Hlen). simpl.
    destruct b; simpl.
    + constructor. exact IH.
    + apply Permutation_sym, Permutation_cons_app, Permutation_sym. exact IH.
Qed.

Lemma select_In (A : Type) (mask : list bool) (l : list A) (a : A) :
  In a (select mask l) -> In a l.
Proof.
  revert l. induction mask as [|b mask IH]; intros [|x l]; simpl;
    try contradiction.
  destruct b; simpl; intuition.
Qed.

Lemma select_nil_iff (A : Type) (mask : list bool) (l : list A) :
  length mask = length l ->
  (select mask l = [] <-> Forall (fun b => b = false) mask).
Proof.
  revert l. induction mask as [|b mask IH]; intros [|a l] Hlen;
    try discriminate Hlen.
  - simpl. split; constructor.
  - injection Hlen as Hlen. specialize (IH l Hlen). simpl.
    destruct b.
    + split; [discriminate|]. intros H. inversion H. discriminate.
    + rewrite IH. split.
      * intros H. constructor; [reflexivity|exact H].
      * intros H. inversion H. assumption.
Qed.

Lemma select_all_true (A : Type) (mask : list bool) (l : list A) :
  length mask = length l ->
  Forall (fun b => b = true) mask ->
  select mask l = l.
Proof.
  revert l. induction mask as [|b mask IH]; intros [|a l] Hlen Hall;
    try discriminate Hlen.
  - reflexivity.
  - injection Hlen as Hlen. inversion Hall as [|? ? Hb Hrest]; subst.
    simpl. f_equal. apply IH; assumption.
Qed.

Lemma left_mask_length (X : matrix) (f : nat) (t : Z) :
  length (map (fun v => (v <=? t)%Z) (column f X)) = length X.
Proof. unfold column. rewrite !length_map. reflexivity. Qed.

Lemma candidate_permutation (X : matrix) (y : list label) (f : nat) (t : Z) :
  length X = length y ->
  Permutation (left_y (candidate X y f t) ++ right_y (candidate X y f t)) y.
Proof.
  intros Hlen. simpl. apply select_partition.
  rewrite left_mask_length. exact Hlen.
Qed.

(** X1: the two label arrays of a candidate split are a partition of the
    node's labels: together they are a rearrangement of [y], so every
    sample's label goes to exactly one side and the sizes add up. *)
Theorem candidate_partitions_labels (X : matrix) (y : list label) (f : nat)
    (t : Z) :
  length X = length y ->
  Permutation (left_y (candidate X y f t) ++ right_y (candidate X y f t)) y
  /\ length (left_y (candidate X y f t)) + length (right_y (candidate X y f t))
     = length y.
Proof.
  intros Hlen. pose proof (candidate_permutation X y f t Hlen) as HP.
  split; [exact HP|].
  rewrite <- length_app. apply Permutation_length. exact HP.
Qed.

Lemma candidate_partitions_labels_witness :
  Permutation ([0; 0] ++ [1; 1]) worked_y /\ 2 + 2 = 4.
Proof.
  apply (candidate_partitions_labels worked_X worked_y 0 2). reflexivity.
Defined.

(** X2: for a threshold taken from the feature column, the left side of
    the candidate is never empty, and the right side is empty exactly when
    the threshold is the greatest value of the column. *)
Theorem candidate_sides_empty (X : matrix) (y : list label) (f : nat) (t : Z) :
  length X = length y ->
  In t (column f X) ->
  left_y (candidate X y f t) <> []
  /\ (right_y (candidate X y f t) = []
      <-> forall v, In v (column f X) -> (v <= t)%Z).
Proof.
  intros Hlen Ht. split.
  - simpl. rewrite select_nil_iff by (rewrite left_mask_length; exact Hlen).
    rewrite Forall_forall. intros Hall.
    assert (Hin : In true (map (fun v => (v <=? t)%Z) (column f X))).
    { apply in_map_iff. exists t. split; [apply Z.leb_refl|exact Ht]. }
    specialize (Hall _ Hin). discriminate Hall.
  - simpl.
    rewrite select_nil_iff
      by (rewrite length_map, left_mask_length; exact Hlen).
    rewrite Forall_forall. split.
    + intros Hall v Hv.
      destruct (Z.le_gt_cases v t) as [Hle|Hgt]; [exact Hle|]. exfalso.
      assert (Hin : In true (map negb (map (fun v => (v <=? t)%Z)
                                         (column f X)))).
      { apply in_map_iff. exists false. split; [reflexivity|].
        apply in_map_iff. exists v. split; [apply Z.leb_gt; lia|exact Hv]. }
      specialize (Hall _ Hin). discriminate Hall.
    + intros Hall b Hb. apply in_map_iff in Hb.
      destruct Hb as [b' [<- Hb']]. apply in_map_iff in Hb'.
      destruct Hb' as [v [<- Hv]]. specialize (Hall v Hv).
      apply Z.leb_le in Hall. rewrite Hall. reflexivity.
Qed.

Lemma candidate_sides_empty_witness :
  left_y (candidate worked_X worked_y 0 4) <> []
  /\ (right_y (candidate worked_X worked_y 0 4) = []
      <-> forall v, In v (column 0 worked_X) -> (v <= 4)%Z).
Proof.
  apply (candidate_sides_empty worked_X worked_y 0 4).
  - reflexivity.
  - simpl. auto.
Defined.

Lemma INR_length_pos (A : Type) (l : list A) : l <> [] -> (0 < INR (length l))%R.
Proof.
  intros Hl. destruct l; [congruence|].
  change 0%R with (INR 0). apply lt_INR. simpl. lia.
Qed.

Lemma information_gain_degenerate (y : list label) :
  y <> [] -> information_gain y y [] = 0%R.
Proof.
  intros Hy. pose proof (INR_length_pos _ y Hy) as Hn.
  unfold information_gain.
  replace (entropy []) with 0%R by (unfold entropy; simpl; lra).
  simpl length. simpl INR. field. lra.
Qed.

Lemma candidate_at_greatest (X : matrix) (y : list label) (f : nat) (t : Z) :
  length X = length y ->
  (forall v, In v (column f X) -> (v <= t)%Z) ->
  candidate X y f t
  = {| split_feature_idx := f; split_threshold := t;
       left_y := y; right_y := [] |}.
Proof.
  intros Hlen Hmax. unfold candidate. f_equal.
  - apply select_all_true; [rewrite left_mask_length; exact Hlen|].
    apply Forall_forall. intros b Hb. apply in_map_iff in Hb.
    destruct Hb as [v [<- Hv]]. apply Z.leb_le, Hmax, Hv.
  - apply select_nil_iff;
      [rewrite length_map, left_mask_length; exact Hlen|].
    apply Forall_forall. intros b Hb. apply in_map_iff in Hb.
    destruct Hb as [b' [<- Hb']]. apply in_map_iff in Hb'.
    destruct Hb' as [v [<- Hv]].
    specialize (Hmax v Hv). apply Z.leb_le in Hmax. rewrite Hmax.
    reflexivity.
Qed.

Lemma gain_at_greatest (X : matrix) (y : list label) (f : nat) (t : Z) :
  length X = length y ->
  y <> [] ->
  (forall v, In v (column f X) -> (v <= t)%Z) ->
  split_gain y (candidate X y f t) = 0%R.
Proof.
  intros Hlen Hy Hmax. rewrite (candidate_at_greatest X y f t Hlen Hmax).
  unfold split_gain. simpl. apply information_gain_degenerate. exact Hy.
Qed.

(** X3: a threshold at or above every value of the feature column sends
    all labels left and none right; the entropy of the empty right side is
    0 (no error is raised), and the information gain of that candidate is
    exactly 0. *)
Theorem greatest_threshold_gain_zero (X : matrix) (y : list label) (f : nat)
    (t : Z) :
  length X = length y ->
  y <> [] ->
  (forall v, In v (column f X) -> (v <= t)%Z) ->
  candidate X y f t
  = {| split_feature_idx := f; split_threshold := t;
       left_y := y; right_y := [] |}
  /\ entropy [] = 0%R
  /\ split_gain y (candidate X y f t) = 0%R.
Proof.
  intros Hlen Hy Hmax. split; [|split].
  - apply candidate_at_greatest; assumption.
  - unfold entropy. simpl. lra.
  - apply gain_at_greatest; assumption.
Qed.

Lemma greatest_threshold_gain_zero_witness :
  candidate constant_X constant_y 0 5
  = {| split_feature_idx := 0; split_threshold := 5;
       left_y := constant_y; right_y := [] |}
  /\ entropy [] = 0%R
  /\ split_gain constant_y (candidate constant_X constant_y 0 5) = 0%R.
Proof.
  apply (greatest_threshold_gain_zero constant_X constant_y 0 5).
  - reflexivity.
  - discriminate.
  - simpl. intros v [<-|[<-|[]]]; lia.
Defined.

Lemma candidates_in (X : matrix) (y : list label) (s : split) :
  In s (candidates X y) ->
  exists f t,
    f < num_features X /\ In t (column f X) /\ s = candidate X y f t.
Proof.
  unfold candidates. intros Hin. apply in_flat_map in Hin.
  destruct Hin as [f [Hf Hs]]. apply in_seq in Hf.
  apply in_map_iff in Hs. destruct Hs as [t [<- Ht]].
  apply (proj1 (np_unique_Z_in t (column f X))) in Ht.
  exists f, t. repeat split; [lia|exact Ht].
Qed.

(** X4: the split returned by the search is one of the candidates: its
    feature index is a column of the node's matrix, its threshold is a value
    that occurs in that column, and its two sides are the labels selected by
    that feature and threshold. *)
Theorem best_split_is_observed_threshold (X : matrix) (y : list label)
    (s : split) :
  best_split X y = Some s ->
  split_feature_idx s < num_features X
  /\ In (split_threshold s) (column (split_feature_idx s) X)
  /\ s = candidate X y (split_feature_idx s) (split_threshold s).
Proof.
  intros Hs. apply best_split_in_candidates, candidates_in in Hs.
  destruct Hs as [f [t [Hf [Ht ->]]]]. simpl. auto.
Qed.

Lemma best_split_is_observed_threshold_witness :
  0 < 1
  /\ In 2%Z (column 0 worked_X)
  /\ worked_split = candidate worked_X worked_y 0 2.
Proof.
  apply (best_split_is_observed_threshold worked_X worked_y worked_split).
  apply worked_best_split.
Defined.

Lemma list_has_max (l : list Z) :
  l <> [] -> exists m, In m l /\ forall v, In v l -> (v <= m)%Z.
Proof.
  induction l as [|a l IH]; [congruence|]. intros _.
  destruct l as [|b l'].
  - exists a. split; [left; reflexivity|]. intros v [<-|[]]. lia.
  - destruct IH as [m [Hm Hmax]]; [discriminate|].
    destruct (Z.le_gt_cases a m).
    + exists m. split; [right; exact Hm|].
      intros v [<-|Hv]; [assumption|apply Hmax, Hv].
    + exists a. split; [left; reflexivity|].
      intros v [<-|Hv]; [lia|]. specialize (Hmax v Hv). lia.
Qed.

(** X5: for a node with at least one sample and one feature, the split
    search returns a split whose information gain is not negative (the
    candidate at the greatest value of a column always offers gain 0). *)
Theorem best_split_gain_nonneg (X : matrix) (y : list label) :
  length X = length y ->
  X <> [] ->
  0 < num_features X ->
  exists s, best_split X y = Some s /\ (0 <= split_gain y s)%R.
Proof.
  intros Hlen HX Hf.
  destruct (best_split_exists X y HX Hf) as [s Hs].
  exists s. split; [exact Hs|].
  assert (Hy : y <> []).
  { intros ->. destruct X; [congruence|discriminate Hlen]. }
  destruct (list_has_max (column 0 X)) as [m [Hm Hmax]].
  { unfold column. destruct X; [congruence|discriminate]. }
  pose proof (gain_at_greatest X y 0 m Hlen Hy Hmax) as Hzero.
  assert (Hin : In (candidate X y 0 m) (candidates X y)).
  { unfold candidates. apply in_flat_map. exists 0. split.
    - apply in_seq. lia.
    - apply in_map. apply (proj2 (np_unique_Z_in m (column 0 X))). exact Hm. }
  assert (Hfm : first_maximal y (candidates X y) s).
  { unfold best_split in Hs.
    destruct (candidates X y) as [|c cands]; [contradiction|].
    destruct (scan_first_maximal y c cands) as [s' [Hscan Hfm]].
    rewrite Hscan in Hs. cbn [snd] in Hs. injection Hs as <-. exact Hfm. }
  destruct Hfm as [l1 [l2 [Heq [H1 H2]]]].
  rewrite Heq in Hin. rewrite <- Hzero.
  apply in_app_or in Hin. destruct Hin as [Hin|[<-|Hin]].
  - rewrite Forall_forall in H1. left. apply H1, Hin.
  - apply Rle_refl.
  - rewrite Forall_forall in H2. apply H2, Hin.
Qed.

Lemma best_split_gain_nonneg_witness :
  exists s, best_split worked_X worked_y = Some s
            /\ (0 <= split_gain worked_y s)%R.
Proof.
  apply (best_split_gain_nonneg worked_X worked_y).
  - reflexivity.
  - discriminate.
  - simpl. lia.
Defined.

Lemma np_unique_constant (y : list label) (c : label) :
  y <> [] -> (forall l, In l y -> l = c) -> np_unique y = [c].
Proof.
  induction y as [|a y IH]; [congruence|]. intros _ Hall.
  assert (a = c) by (apply Hall; left; reflexivity). subst a.
  unfold np_unique, unique. simpl.
  destruct y as [|b y'].
  - reflexivity.
  - fold (unique Nat.ltb Nat.eqb (b :: y')). fold (np_unique (b :: y')).
    rewrite IH; [|discriminate|intros l Hl; apply Hall; right; exact Hl].
    simpl. rewrite Nat.ltb_irrefl, Nat.eqb_refl. reflexivity.
Qed.

(** X6: a node whose labels are all equal to [c] becomes the leaf [c],
    whatever the matrix, the depth and [max_depth] are: the purity test
    comes first. *)
Theorem build_tree_pure_leaf (md : option nat) (fuel : nat) (X : matrix)
    (y : list label) (depth : nat) (c : label) :
  y <> [] ->
  (forall l, In l y -> l = c) ->
  build_tree md (S fuel) X y depth = Ok (Leaf c).
Proof.
  intros Hy Hall. simpl.
  rewrite (np_unique_constant y c Hy Hall). reflexivity.
Qed.

Lemma build_tree_pure_leaf_witness :
  build_tree (Some 3) 1 [[1]; [2]; [3]]%Z [7; 7; 7] 9 = Ok (Leaf 7).
Proof.
  apply (build_tree_pure_leaf (Some 3) 0 [[1]; [2]; [3]]%Z [7; 7; 7] 9 7).
  - discriminate.
  - simpl. intros l [<-|[<-|[<-|[]]]]; reflexivity.
Defined.

(** ** The tree builder *)

Lemma majority_leaf_inv (y : list label) (t : tree) :
  majority_leaf y = Ok t -> exists c, t = Leaf c /\ is_majority y c.
Proof.
  intros H.
  destruct (list_eq_dec Nat.eq_dec y []) as [->|Hy]; [discriminate H|].
  destruct (argmax_bincount y Hy) as [c [Hc Hmaj]].
  unfold majority_leaf in H. rewrite Hc in H. simpl in H.
  injection H as <-. exists c. auto.
Qed.

Lemma majority_leaf_raises (y : list label) (e : exception) :
  majority_leaf y = Raise e -> e = ValueError.
Proof.
  unfold majority_leaf, argmax. destruct (bincount y); simpl; congruence.
Qed.

Lemma take_rows_raises (X : matrix) (idx : list nat) (e : exception) :
  take_rows X idx = Raise e -> e = IndexError.
Proof.
  induction idx as [|i idx IH]; simpl; [discriminate|].
  destruct (nth_error X i); [|congruence].
  destruct (take_rows X idx); simpl; [discriminate|].
  intros H. apply IH. congruence.
Qed.

Lemma take_rows_in_range (X : matrix) (idx : list nat) (XL : matrix) :
  take_rows X idx = Ok XL -> Forall (fun i => i < length X) idx.
Proof.
  revert XL. induction idx as [|i idx IH]; intros XL; simpl.
  - constructor.
  - destruct (nth_error X i) as [r|] eqn:Hr; [|discriminate].
    destruct (take_rows X idx) as [rows|]; [|discriminate].
    intros _. constructor; [|eapply IH; reflexivity].
    apply nth_error_Some. congruence.
Qed.

Lemma depth_reached_positive (m depth : nat) :
  0 < m -> depth_reached (Some m) depth = (m <=? depth).
Proof. destruct m; [lia|reflexivity]. Qed.

(** The builder's split branch, read backwards from a result. *)
Lemma build_tree_inv (md : option nat) (fuel : nat) (X : matrix)
    (y : list label) (depth : nat) (t : tree) :
  build_tree md (S fuel) X y depth = Ok t ->
  (exists c, t = Leaf c /\ In c y)
  \/ (exists s XL XR lt rt,
        depth_reached md depth = false
        /\ best_split X y = Some s
        /\ take_rows X (left_y s) = Ok XL
        /\ build_tree md fuel XL (left_y s) (S depth) = Ok lt
        /\ take_rows X (right_y s) = Ok XR
        /\ build_tree md fuel XR (right_y s) (S depth) = Ok rt
        /\ t = Internal (split_feature_idx s) (split_threshold s) lt rt).
Proof.
  simpl.
  destruct (Nat.eqb_spec (length (np_unique y)) 1) as [Hpure|Hmixed].
  { intros H. injection H as <-. left. eexists. split; [reflexivity|].
    apply np_unique_in.
    destruct (np_unique y) as [|u [|? ?]]; try discriminate Hpure.
    left. reflexivity. }
  destruct ((num_samples X =? 0) || depth_reached md depth) eqn:Hstop.
  { intros H. apply majority_leaf_inv in H. destruct H as [c [-> [_ [_ Hin]]]].
    left. eauto. }
  apply orb_false_iff in Hstop. destruct Hstop as [_ Hdepth].
  destruct (best_split X y) as [s|] eqn:Hs.
  2:{ intros H. apply majority_leaf_inv in H.
      destruct H as [c [-> [_ [_ Hin]]]]. left. eauto. }
  destruct (take_rows X (left_y s)) as [XL|e] eqn:HL; [|discriminate].
  cbn [bind].
  destruct (build_tree md fuel XL (left_y s) (S depth)) as [lt|e] eqn:Hlt;
    [|discriminate].
  cbn [bind].
  destruct (take_rows X (right_y s)) as [XR|e] eqn:HR; [|discriminate].
  cbn [bind].
  destruct (build_tree md fuel XR (right_y s) (S depth)) as [rt|e] eqn:Hrt;
    [|discriminate].
  cbn [bind]. intros H. injection H as <-.
  right. exists s, XL, XR, lt, rt. repeat split; assumption.
Qed.

(** X7: with a positive [max_depth = m], a tree built from depth [depth]
    has height at most [m - depth]; the fitted tree has height at most
    [m]. *)
Theorem build_tree_height_bound (m fuel : nat) (X : matrix) (y : list label)
    (depth : nat) (t : tree) :
  0 < m ->
  depth <= m ->
  build_tree (Some m) fuel X y depth = Ok t ->
  height t <= m - depth.
Proof.
  intros Hm. revert X y depth t.
  induction fuel as [|fuel IH]; intros X y depth t Hd Hb; [discriminate|].
  apply build_tree_inv in Hb.
  destruct Hb as [[c [-> _]]|[s [XL [XR [lt [rt H]]]]]]; [simpl; lia|].
  destruct H as [Hdepth [_ [_ [Hlt [_ [Hrt ->]]]]]].
  rewrite depth_reached_positive in Hdepth by exact Hm.
  apply Nat.leb_gt in Hdepth.
  apply IH in Hlt; [|lia]. apply IH in Hrt; [|lia]. simpl. lia.
Qed.

Lemma build_tree_height_bound_witness : height worked_tree <= 1 - 0.
Proof.
  apply (build_tree_height_bound 1 2 worked_X worked_y 0 worked_tree).
  - lia.
  - lia.
  - apply (worked_build_tree (Some 1) 0).
Defined.

(** X8: with a positive [max_depth = m] and more than [m - depth] stack
    frames left, the builder never runs out of stack: if it fails, it fails
    with [ValueError] or [IndexError]. *)
Theorem build_tree_bounded_recursion (m fuel : nat) (X : matrix)
    (y : list label) (depth : nat) (e : exception) :
  0 < m ->
  0 < fuel ->
  m < depth + fuel ->
  build_tree (Some m) fuel X y depth = Raise e ->
  e = ValueError \/ e = IndexError.
Proof.
  intros Hm. revert X y depth.
  induction fuel as [|fuel IH]; intros X y depth Hfuel Hd; [lia|].
  cbn [build_tree].
  destruct (length (np_unique y) =? 1); [discriminate|].
  rewrite depth_reached_positive by exact Hm.
  destruct (Nat.leb_spec m depth) as [Hstop|Hgo].
  { rewrite orb_true_r. intros H. left. eapply majority_leaf_raises, H. }
  destruct (num_samples X =? 0); simpl.
  { intros H. left. eapply majority_leaf_raises, H. }
  destruct (best_split X y) as [s|].
  2:{ intros H. left. eapply majority_leaf_raises, H. }
  destruct (take_rows X (left_y s)) as [XL|e'] eqn:HL.
  2:{ simpl. intros H. injection H as <-. right.
      eapply take_rows_raises, HL. }
  cbn [bind].
  destruct (build_tree (Some m) fuel XL (left_y s) (S depth)) as [lt|e']
    eqn:Hlt.
  2:{ simpl. intros H. injection H as <-.
      apply (IH XL (left_y s) (S depth)); [lia|lia|exact Hlt]. }
  cbn [bind].
  destruct (take_rows X (right_y s)) as [XR|e'] eqn:HR.
  2:{ simpl. intros H. injection H as <-. right.
      eapply take_rows_raises, HR. }
  cbn [bind].
  destruct (build_tree (Some m) fuel XR (right_y s) (S depth)) as [rt|e']
    eqn:Hrt.
  2:{ simpl. intros H. injection H as <-.
      apply (IH XR (right_y s) (S depth)); [lia|lia|exact Hrt]. }
  discriminate.
Qed.

Lemma build_tree_bounded_recursion_witness :
  ValueError = ValueError \/ ValueError = IndexError.
Proof.
  apply (build_tree_bounded_recursion 1 2 constant_X constant_y 0 ValueError).
  - lia.
  - lia.
  - lia.
  - reflexivity.
Defined.

Lemma build_tree_leaves_in (md : option nat) (fuel : nat) (X : matrix)
    (y : list label) (depth : nat) (t : tree) :
  build_tree md fuel X y depth = Ok t ->
  forall c, In c (leaf_labels t) -> In c y.
Proof.
  revert X y depth t.
  induction fuel as [|fuel IH]; intros X y depth t Hb; [discriminate|].
  apply build_tree_inv in Hb.
  destruct Hb as [[c [-> Hin]]|[s [XL [XR [lt [rt H]]]]]].
  - intros c' [<-|[]]. exact Hin.
  - destruct H as [_ [Hs [_ [Hlt [_ [Hrt ->]]]]]].
    apply best_split_in_candidates, candidates_in in Hs.
    destruct Hs as [f [th [_ [_ ->]]]].
    intros c Hc. simpl in Hc. apply in_app_or in Hc.
    destruct Hc as [Hc|Hc].
    + eapply IH in Hlt; [|exact Hc]. simpl in Hlt.
      eapply select_In, Hlt.
    + eapply IH in Hrt; [|exact Hc]. simpl in Hrt.
      eapply select_In, Hrt.
Qed.

(** X9: every leaf of a tree the builder returns carries a label that
    occurs among the labels the builder was given. *)
Theorem build_tree_leaf_labels (md : option nat) (fuel : nat) (X : matrix)
    (y : list label) (depth : nat) (t : tree) :
  build_tree md fuel X y depth = Ok t ->
  incl (leaf_labels t) y.
Proof. intros Hb c. apply (build_tree_leaves_in md fuel X y depth t Hb). Qed.

Lemma build_tree_leaf_labels_witness :
  incl (leaf_labels worked_tree) worked_y.
Proof.
  apply (build_tree_leaf_labels None 2 worked_X worked_y 0 worked_tree).
  apply (worked_build_tree None 0).
Defined.

(** X10: when the builder returns an internal node for a node with as
    many labels as rows, every label of the node is smaller than the node's
    number of rows: the children are built from [X] indexed by the label
    arrays, which must therefore be row numbers. *)
Theorem split_node_labels_are_row_numbers (md : option nat) (fuel : nat)
    (X : matrix) (y : list label) (depth : nat) (f : nat) (th : Z)
    (lt rt : tree) :
  length X = length y ->
  build_tree md fuel X y depth = Ok (Internal f th lt rt) ->
  Forall (fun c => c < length X) y.
Proof.
  intros Hlen Hb. destruct fuel as [|fuel]; [discriminate|].
  apply build_tree_inv in Hb.
  destruct Hb as [[c [Hc _]]|[s [XL [XR [lt' [rt' H]]]]]]; [discriminate|].
  destruct H as [_ [Hs [HL [_ [HR [_ _]]]]]].
  apply take_rows_in_range in HL. apply take_rows_in_range in HR.
  apply best_split_in_candidates, candidates_in in Hs.
  destruct Hs as [f' [t' [_ [_ ->]]]].
  pose proof (candidate_permutation X y f' t' Hlen) as HP.
  eapply Permutation_Forall; [exact HP|].
  apply Forall_app. split; assumption.
Qed.

Lemma split_node_labels_are_row_numbers_witness :
  Forall (fun c => c < length worked_X) worked_y.
Proof.
  apply (split_node_labels_are_row_numbers None 2 worked_X worked_y 0
           0 2 (Leaf 0) (Leaf 1)).
  - reflexivity.
  - apply (worked_build_tree None 0).
Defined.

(** ** Fitting and predicting *)

Lemma predict_node_leaf (x : row) (t : tree) (c : label) :
  predict_node x t = Ok c -> In c (leaf_labels t).
Proof.
  induction t as [c'|f th l IHl r IHr]; simpl.
  - intros H. injection H as <-. left. reflexivity.
  - destruct (nth_error x f) as [v|]; [|discriminate].
    destruct (v <=? th)%Z; intros H; apply in_or_app; auto.
Qed.

Lemma predict_node_raises (x : row) (t : tree) (e : exception) :
  predict_node x t = Raise e -> e = IndexError.
Proof.
  induction t as [c'|f th l IHl r IHr]; simpl; [discriminate|].
  destruct (nth_error x f) as [v|]; [|congruence].
  destruct (v <=? th)%Z; assumption.
Qed.

(** X11: after a successful [fit] on an [M] column matrix, [predict] on
    any batch of [M] column rows succeeds, returns one label per row, and
    every predicted label is one of the training labels. *)
Theorem fit_then_predict (fuel : nat) (m m' : CustomDecisionTree)
    (X : matrix) (y : list label) (M : nat) (X' : matrix) :
  fit fuel m X y = Ok m' ->
  Forall (fun r => length r = M) X ->
  Forall (fun r => length r = M) X' ->
  exists labels,
    predict m' X' = Ok labels
    /\ length labels = length X'
    /\ Forall (fun c => In c y) labels.
Proof.
  unfold fit. intros Hfit HX HX'.
  destruct (build_tree (max_depth m) fuel X y 0) as [t|e] eqn:Hb;
    [|discriminate Hfit].
  simpl in Hfit. injection Hfit as <-. unfold predict. simpl.
  pose proof (build_tree_features_below (max_depth m) M fuel X y 0 t HX Hb)
    as Hbelow.
  induction HX' as [|x X' Hx _ IH].
  - exists []. repeat split. constructor.
  - destruct IH as [labels [Hp [Hlen Hall]]].
    destruct (predict_node_routes M x t Hbelow) as [c [Hc _]]; [lia|].
    exists (c :: labels). simpl. rewrite Hc. simpl. rewrite Hp. simpl.
    repeat split.
    + f_equal. exact Hlen.
    + constructor; [|exact Hall].
      eapply build_tree_leaves_in; [exact Hb|].
      eapply predict_node_leaf, Hc.
Qed.

Lemma fit_then_predict_witness :
  exists labels,
    predict {| max_depth := None; fitted := Some worked_tree |}
      [[0]; [9]; [2]]%Z = Ok labels
    /\ length labels = 3
    /\ Forall (fun c => In c worked_y) labels.
Proof.
  apply (fit_then_predict 2 (init None) _ worked_X worked_y 1
           [[0]; [9]; [2]]%Z).
  - apply (worked_fit None 0).
  - repeat constructor.
  - repeat constructor.
Defined.

(** X12: on a fitted model the only way [predict] fails is [IndexError],
    and then some row of the batch is too short for a column the tree tests
    on that row's path. *)
Theorem predict_fitted_only_index_error (md : option nat) (t : tree)
    (X : matrix) (e : exception) :
  predict {| max_depth := md; fitted := Some t |} X = Raise e ->
  e = IndexError
  /\ exists x, In x X /\ predict_node x t = Raise IndexError.
Proof.
  unfold predict. simpl. induction X as [|x X IH]; simpl; [discriminate|].
  destruct (predict_node x t) as [c|e'] eqn:Hx.
  - simpl. destruct (predict_rows (Some t) X) as [cs|e'']; simpl;
      [discriminate|].
    intros H. injection H as <-.
    destruct (IH eq_refl) as [He [x' [Hin Hx']]].
    split; [exact He|]. exists x'. split; [right; exact Hin|exact Hx'].
  - simpl. intros H. injection H as <-.
    pose proof (predict_node_raises x t e' Hx) as ->.
    split; [reflexivity|]. exists x. split; [left; reflexivity|exact Hx].
Qed.

Lemma predict_fitted_only_index_error_witness :
  IndexError = IndexError
  /\ exists x, In x [[]; []] /\ predict_node x worked_tree = Raise IndexError.
Proof.
  apply (predict_fitted_only_index_error None worked_tree [[]; []]
           IndexError).
  reflexivity.
Defined.

(** X13: what [X[idx]] hands to a recursive call: when every entry of
    [idx] is a row number, one row per entry, the k-th being the row of [X]
    numbered by the k-th entry (equal labels give identical rows);
    otherwise [IndexError]. *)
Theorem take_rows_by_label (X : matrix) (idx : list nat) :
  (Forall (fun i => i < length X) idx ->
   exists XL,
     take_rows X idx = Ok XL
     /\ length XL = length idx
     /\ forall k i, nth_error idx k = Some i ->
                    nth_error XL k = nth_error X i)
  /\ (~ Forall (fun i => i < length X) idx ->
      take_rows X idx = Raise IndexError).
Proof.
  split.
  - induction 1 as [|i idx Hi _ IH].
    + exists []. repeat split. intros [|k] i H; discriminate H.
    + destruct IH as [XL [Hok [Hlen Hnth]]].
      destruct (nth_error X i) as [r|] eqn:Hr.
      2:{ apply nth_error_None in Hr. lia. }
      exists (r :: XL). simpl. rewrite Hr, Hok. simpl.
      repeat split; [f_equal; exact Hlen|].
      intros [|k] j H; simpl in *.
      * injection H as <-. symmetry. exact Hr.
      * apply Hnth. exact H.
  - intros Hnot.
    destruct (take_rows X idx) as [XL|e] eqn:Ht.
    + exfalso. apply Hnot. eapply take_rows_in_range, Ht.
    + f_equal. eapply take_rows_raises, Ht.
Qed.

Lemma take_rows_by_label_witness :
  exists XL,
    take_rows worked_X [0; 0] = Ok XL
    /\ length XL = 2
    /\ forall k i, nth_error [0; 0] k = Some i ->
                   nth_error XL k = nth_error worked_X i.
Proof.
  apply (take_rows_by_label worked_X [0; 0]).
  repeat constructor.
Defined.

(** X14: with a positive [max_depth = m], a non-empty node at depth [m] or
    deeper becomes a leaf whose label has the greatest count among the
    node's labels, the smallest such label among ties. *)
Theorem depth_limit_majority_leaf (m fuel : nat) (X : matrix)
    (y : list label) (depth : nat) :
  0 < m ->
  m <= depth ->
  y <> [] ->
  exists c,
    build_tree (Some m) (S fuel) X y depth = Ok (Leaf c)
    /\ (forall j, count_occ Nat.eq_dec y j <= count_occ Nat.eq_dec y c)
    /\ (forall j, j < c -> count_occ Nat.eq_dec y j < count_occ Nat.eq_dec y c)
    /\ In c y.
Proof.
  intros Hm Hd Hy.
  rewrite build_tree_at_limit
    by (rewrite depth_reached_positive by exact Hm; apply Nat.leb_le, Hd).
  destruct (argmax_bincount y Hy) as [c [Hc Hmaj]].
  exists c. unfold majority_leaf. rewrite Hc. split; [reflexivity|exact Hmaj].
Qed.

Lemma depth_limit_majority_leaf_witness :
  exists c,
    build_tree (Some 1) 1 constant_X constant_y 1 = Ok (Leaf c)
    /\ (forall j, count_occ Nat.eq_dec constant_y j
                  <= count_occ Nat.eq_dec constant_y c)
    /\ (forall j, j < c -> count_occ Nat.eq_dec constant_y j
                           < count_occ Nat.eq_dec constant_y c)
    /\ In c constant_y.
Proof.
  apply (depth_limit_majority_leaf 1 0 constant_X constant_y 1).
  - lia.
  - lia.
  - discriminate.
Defined.


(** ** Entropy and gain on rearranged and balanced labels *)

Lemma list_max_permutation (l l' : list nat) :
  Permutation l l' -> list_max l = list_max l'.
Proof.
  induction 1; simpl; try lia.
Qed.

Lemma bincount_permutation (y y' : list label) :
  Permutation y y' -> bincount y = bincount y'.
Proof.
  intros HP.
  destruct (list_eq_dec Nat.eq_dec y []) as [->|Hy].
  - apply Permutation_nil in HP. subst. reflexivity.
  - assert (Hy' : y' <> []).
    { intros ->. apply Permutation_sym, Permutation_nil in HP. contradiction. }
    rewrite !bincount_not_nil by assumption.
    rewrite (list_max_permutation y y' HP).
    apply map_ext. intros i.
    apply (Permutation_count_occ Nat.eq_dec). exact HP.
Qed.

Lemma entropy_permutation (y y' : list label) :
  Permutation y y' -> entropy y = entropy y'.
Proof.
  intros HP. unfold entropy, class_probs.
  rewrite (bincount_permutation y y' HP), (Permutation_length HP).
  reflexivity.
Qed.

(** X15: the entropy of a label array and the information gain of a split
    depend only on how often each label occurs, not on the order of the
    samples. *)
Theorem information_gain_permutation (parent parent' left left' right right'
    : list label) :
  Permutation parent parent' ->
  Permutation left left' ->
  Permutation right right' ->
  entropy parent = entropy parent'
  /\ information_gain parent left right
     = information_gain parent' left' right'.
Proof.
  intros Hp Hl Hr. split; [apply entropy_permutation, Hp|].
  unfold information_gain.
  rewrite (entropy_permutation parent parent' Hp),
          (entropy_permutation left left' Hl),
          (entropy_permutation right right' Hr),
          (Permutation_length Hp), (Permutation_length Hl),
          (Permutation_length Hr).
  reflexivity.
Qed.

Lemma information_gain_permutation_witness :
  entropy [0; 1; 1] = entropy [1; 0; 1]
  /\ information_gain [0; 1; 1] [0; 1] [1]
     = information_gain [1; 0; 1] [1; 0] [1].
Proof.
  apply (information_gain_permutation [0; 1; 1] [1; 0; 1] [0; 1] [1; 0]
           [1] [1]).
  - apply perm_swap.
  - apply perm_swap.
  - apply Permutation_refl.
Defined.

Open Scope R_scope.

Lemma list_sum_two_valued (m : nat) (cs : list nat) :
  (forall c, In c cs -> c = 0%nat \/ c = m) ->
  (0 < m)%nat ->
  list_sum cs = (nonzero cs * m)%nat.
Proof.
  intros Hall Hm. induction cs as [|c cs IH]; [reflexivity|].
  unfold nonzero in *. simpl.
  rewrite IH by (intros c' Hc'; apply Hall; right; exact Hc').
  destruct (Hall c (or_introl eq_refl)) as [->| ->].
  - reflexivity.
  - destruct (Nat.ltb_spec 0 m); [simpl; lia|lia].
Qed.

Lemma bincount_entries_balanced (y : list label) (m c : nat) :
  (forall l, In l y -> count_occ Nat.eq_dec y l = m) ->
  In c (bincount y) -> c = 0%nat \/ c = m.
Proof.
  intros Hbal Hin.
  destruct (list_eq_dec Nat.eq_dec y []) as [->|Hy]; [contradiction|].
  rewrite bincount_not_nil in Hin by exact Hy. apply in_map_iff in Hin.
  destruct Hin as [i [<- _]].
  destruct (in_dec Nat.eq_dec i y) as [Hi|Hi].
  - right. apply Hbal, Hi.
  - left. apply count_occ_not_In, Hi.
Qed.

(** X16: when every label that occurs in a non-empty array occurs equally
    often, the entropy is [- log2 (1/k + 1e-9)] for [k] distinct labels
    (just below 1 bit for a 50/50 two class array). *)
Theorem entropy_balanced (y : list label) (m : nat) :
  y <> [] ->
  (forall l, In l y -> count_occ Nat.eq_dec y l = m) ->
  entropy y = - log2 (/ INR (length (np_unique y)) + eps).
Proof.
  intros Hy Hbal.
  assert (Hm : (0 < m)%nat).
  { destruct y as [|a y']; [congruence|].
    rewrite <- (Hbal a (or_introl eq_refl)).
    apply (count_occ_In Nat.eq_dec). left. reflexivity. }
  set (k := length (np_unique y)).
  assert (Hn : length y = (k * m)%nat).
  { rewrite <- bincount_sum. unfold k. rewrite <- bincount_nonzero.
    apply list_sum_two_valued; [|exact Hm].
    intros c. apply bincount_entries_balanced. exact Hbal. }
  assert (Hk : (0 < k)%nat).
  { destruct k; [|lia]. simpl in Hn. destruct y; [congruence|discriminate]. }
  assert (HK : 0 < INR k) by (apply lt_INR in Hk; exact Hk).
  assert (HM : 0 < INR m) by (apply lt_INR in Hm; exact Hm).
  rewrite entropy_terms. f_equal.
  rewrite (map_ext_in _
             (fun c => INR c * (log2 (/ INR k + eps) / INR (length y)))).
  - rewrite Rsum_map_scale, bincount_sum, Hn, mult_INR. field. lra.
  - intros c Hc.
    destruct (bincount_entries_balanced y m c Hbal Hc) as [->| ->];
      unfold term.
    + simpl. lra.
    + rewrite Hn, mult_INR.
      replace (INR m / (INR k * INR m)) with (/ INR k) by (field; lra).
      field. lra.
Qed.

Lemma entropy_balanced_witness :
  entropy worked_y = - log2 (/ INR 2 + eps).
Proof.
  apply (entropy_balanced worked_y 2).
  - discriminate.
  - simpl. intros l [<-|[<-|[<-|[<-|[]]]]]; reflexivity.
Defined.

Close Scope R_scope.

(** ** Identical rows with mixed labels *)

Lemma column_repeat (f : nat) (r : row) (n : nat) :
  column f (repeat r n) = repeat (nth f r 0%Z) n.
Proof. unfold column. induction n; simpl; congruence. Qed.

Lemma take_rows_repeat (r : row) (n : nat) (idx : list nat) :
  Forall (fun i => i < n) idx ->
  take_rows (repeat r n) idx = Ok (repeat r (length idx)).
Proof.
  induction 1 as [|i idx Hi _ IH]; [reflexivity|].
  simpl. rewrite IH.
  destruct (nth_error (repeat r n) i) as [r'|] eqn:Hr.
  - apply nth_error_In, repeat_spec in Hr. subst. reflexivity.
  - apply nth_error_None in Hr. rewrite repeat_length in Hr. lia.
Qed.

Lemma identical_rows_best_split (r : row) (y : list label) (s : split) :
  y <> [] ->
  best_split (repeat r (length y)) y = Some s ->
  left_y s = y /\ right_y s = [].
Proof.
  intros Hy Hs. apply best_split_in_candidates, candidates_in in Hs.
  destruct Hs as [f [t [_ [Ht ->]]]].
  rewrite column_repeat in Ht. apply repeat_spec in Ht. subst t.
  rewrite (candidate_at_greatest (repeat r (length y)) y f (nth f r 0%Z)).
  - split; reflexivity.
  - apply repeat_length.
  - intros v Hv. rewrite column_repeat in Hv. apply repeat_spec in Hv. lia.
Qed.

Lemma two_classes_not_nil (y : list label) :
  2 <= length (np_unique y) -> y <> [].
Proof. intros H ->. simpl in H. lia. Qed.

Lemma identical_rows_split_branch (md : option nat) (fuel : nat) (r : row)
    (y : list label) (depth : nat) :
  r <> [] ->
  2 <= length (np_unique y) ->
  Forall (fun c => c < length y) y ->
  depth_reached md depth = false ->
  build_tree md (S fuel) (repeat r (length y)) y depth
  = (left_tree <- build_tree md fuel (repeat r (length y)) y (S depth) ;;
     _ <- build_tree md fuel [] [] (S depth) ;;
     Raise ValueError).
Proof.
  intros Hr Hmixed Hrange Hdepth.
  pose proof (two_classes_not_nil y Hmixed) as Hy.
  assert (HX : repeat r (length y) <> []).
  { destruct y; [congruence|discriminate]. }
  assert (Hf : 0 < num_features (repeat r (length y))).
  { destruct y; [congruence|]. simpl. destruct r; [congruence|simpl; lia]. }
  destruct (best_split_exists _ y HX Hf) as [s Hs].
  destruct (identical_rows_best_split r y s Hy Hs) as [HL HR].
  rewrite (build_tree_split_branch md fuel _ y depth s); try assumption; [|lia].
  rewrite HL, HR, (take_rows_repeat r (length y) y Hrange).
  cbn [bind take_rows]. unfold label in *.
  destruct (build_tree md fuel (repeat r (length y)) y (S depth));
    [|reflexivity].
  cbn [bind]. destruct fuel; reflexivity.
Qed.

(** X17: when all rows of the training matrix are identical, at least two
    distinct labels occur and every label is a row number, [fit] without a
    depth limit ([max_depth] unset or 0) never returns: the left child is
    the node itself, and the recursion ends in [RecursionError] whatever
    the stack depth. *)
Theorem identical_rows_unbounded_recursion (md : option nat) (fuel : nat)
    (r : row) (y : list label) :
  md = None \/ md = Some 0 ->
  r <> [] ->
  2 <= length (np_unique y) ->
  Forall (fun c => c < length y) y ->
  fit fuel (init md) (repeat r (length y)) y = Raise RecursionError.
Proof.
  intros Hmd Hr Hmixed Hrange. unfold fit. cbn [max_depth init].
  assert (Hdepth : forall d, depth_reached md d = false).
  { intros d. destruct Hmd as [-> | ->]; reflexivity. }
  assert (H : forall d, build_tree md fuel (repeat r (length y)) y d
                        = Raise RecursionError).
  { induction fuel as [|fuel IH]; intros d; [reflexivity|].
    rewrite identical_rows_split_branch by auto.
    rewrite IH. reflexivity. }
  rewrite H. reflexivity.
Qed.

Lemma identical_rows_unbounded_recursion_witness :
  fit 1000 (init None) (repeat [5%Z] (length constant_y)) constant_y
  = Raise RecursionError.
Proof.
  apply (identical_rows_unbounded_recursion None 1000 [5%Z] constant_y).
  - left. reflexivity.
  - discriminate.
  - simpl. lia.
  - repeat constructor.
Defined.

Lemma identical_rows_value_error (m fuel : nat) (r : row) (y : list label)
    (depth : nat) :
  r <> [] ->
  2 <= length (np_unique y) ->
  Forall (fun c => c < length y) y ->
  depth < m ->
  m < depth + fuel ->
  build_tree (Some m) fuel (repeat r (length y)) y depth = Raise ValueError.
Proof.
  intros Hr Hmixed Hrange. revert depth.
  induction fuel as [|fuel IH]; intros depth Hd Hfuel; [lia|].
  rewrite identical_rows_split_branch; try assumption.
  2:{ rewrite depth_reached_positive by lia. apply Nat.leb_gt. exact Hd. }
  destruct (Nat.eq_dec (S depth) m) as [Heq|Hne].
  - destruct fuel as [|fuel]; [lia|].
    rewrite build_tree_at_limit
      by (rewrite depth_reached_positive by lia; apply Nat.leb_le; lia).
    destruct (argmax_bincount y (two_classes_not_nil y Hmixed)) as [c [Hc _]].
    unfold majority_leaf. rewrite Hc. reflexivity.
  - rewrite IH by lia. reflexivity.
Qed.

(** X18: on the same kind of training set, [fit] with a positive
    [max_depth] (and enough stack) raises [ValueError]: the empty right side
    of the degenerate split reaches [np.bincount(y).argmax()]. *)
Theorem identical_rows_fit_value_error (m fuel : nat) (r : row)
    (y : list label) :
  0 < m ->
  m < fuel ->
  r <> [] ->
  2 <= length (np_unique y) ->
  Forall (fun c => c < length y) y ->
  fit fuel (init (Some m)) (repeat r (length y)) y = Raise ValueError.
Proof.
  intros Hm Hfuel Hr Hmixed Hrange. unfold fit. cbn [max_depth init].
  rewrite identical_rows_value_error by (auto; lia). reflexivity.
Qed.

Lemma identical_rows_fit_value_error_witness :
  fit 1000 (init (Some 3)) (repeat [5%Z] (length constant_y)) constant_y
  = Raise ValueError.
Proof.
  apply (identical_rows_fit_value_error 3 1000 [5%Z] constant_y).
  - lia.
  - lia.
  - discriminate.
  - simpl. lia.
  - repeat constructor.
Defined.

(** * The split search over any gain arithmetic *)

(** The definitions over the reals are the instance at [gain]. *)

Lemma best_split_instance (X : matrix) (y : list label) :
  best_split X y = best_split_with NegInf gain_gtb real_info_gain X y.
Proof. reflexivity. Qed.

Lemma build_tree_instance (md : option nat) (fuel : nat) (X : matrix)
    (y : list label) (depth : nat) :
  build_tree md fuel X y depth
  = build_tree_with NegInf gain_gtb real_info_gain md fuel X y depth.
Proof.
  revert X y depth. induction fuel as [|fuel IH]; intros X y depth.
  - reflexivity.
  - cbn [build_tree build_tree_with].
    change (best_split_with NegInf gain_gtb real_info_gain X y)
      with (best_split X y).
    destruct (length (np_unique y) =? 1); [reflexivity|].
    destruct ((num_samples X =? 0) || depth_reached md depth); [reflexivity|].
    destruct (best_split X y) as [s|]; [|reflexivity].
    destruct (take_rows X (left_y s)) as [XL|]; [|reflexivity]. cbn [bind].
    rewrite IH.
    destruct (build_tree_with NegInf gain_gtb real_info_gain md fuel XL
                (left_y s) (S depth)); [|reflexivity].
    cbn [bind].
    destruct (take_rows X (right_y s)) as [XR|]; [|reflexivity]. cbn [bind].
    rewrite IH. reflexivity.
Qed.

Lemma fit_instance (fuel : nat) (m : CustomDecisionTree) (X : matrix)
    (y : list label) :
  fit fuel m X y = fit_with NegInf gain_gtb real_info_gain fuel m X y.
Proof. unfold fit, fit_with. rewrite build_tree_instance. reflexivity. Qed.

Section GainOrder.

Variable G : Type.
Variable neg_inf : G.
Variable gtb : G -> G -> bool.
Variable info_gain : list label -> list label -> list label -> G.

(** [>] on the float values other than NaN is a strict weak order. *)
Hypothesis gtb_asym : forall a b, gtb a b = true -> gtb b a = false.
Hypothesis gtb_cotrans :
  forall a b c, gtb a b = true -> gtb a c = true \/ gtb c b = true.

Lemma gtb_trans (a b c : G) :
  gtb a b = true -> gtb b c = true -> gtb a c = true.
Proof.
  intros Hab Hbc. destruct (gtb_cotrans a b c Hab) as [H|H]; [exact H|].
  apply gtb_asym in Hbc. congruence.
Qed.

Lemma gtb_above_not_below (a b c : G) :
  gtb a b = true -> gtb c b = false -> gtb a c = true.
Proof.
  intros Hab Hcb. destruct (gtb_cotrans a b c Hab) as [H|H]; [exact H|].
  congruence.
Qed.

Lemma scan_with_invariant (y : list label) (cands l1 l2 : list split)
    (s : split) :
  Forall (fun c => gtb (split_gain_with info_gain y s) (split_gain_with info_gain y c) = true) l1 ->
  Forall (fun c => gtb (split_gain_with info_gain y c) (split_gain_with info_gain y s) = false) l2 ->
  exists s',
    scan_with gtb info_gain y cands (split_gain_with info_gain y s, Some s)
    = (split_gain_with info_gain y s', Some s')
    /\ first_greatest gtb info_gain y (l1 ++ s :: l2 ++ cands) s'.
Proof.
  revert l1 l2 s.
  induction cands as [|c cands IH]; intros l1 l2 s H1 H2.
  - exists s. split; [reflexivity|].
    exists l1, l2. rewrite app_nil_r. auto.
  - unfold scan_with. cbn [fold_left]. unfold scan_step_with at 2.
    cbn [fst].
    destruct (gtb (split_gain_with info_gain y c) (split_gain_with info_gain y s)) eqn:Hc.
    + destruct (IH (l1 ++ s :: l2) [] c) as [s' [Hscan Hfg]].
      * apply Forall_app. split.
        -- eapply Forall_impl; [|exact H1]. cbn beta. intros a Ha.
           eapply gtb_trans; eassumption.
        -- constructor; [exact Hc|].
           eapply Forall_impl; [|exact H2]. cbn beta. intros a Ha.
           eapply gtb_above_not_below; eassumption.
      * constructor.
      * exists s'. split; [exact Hscan|].
        cbn [app] in Hfg. rewrite <- app_assoc in Hfg. exact Hfg.
    + destruct (IH l1 (l2 ++ [c]) s) as [s' [Hscan Hfg]].
      * exact H1.
      * apply Forall_app. split; [exact H2|].
        constructor; [exact Hc|constructor].
      * exists s'. split; [exact Hscan|].
        rewrite <- app_assoc in Hfg. exact Hfg.
Qed.

End GainOrder.

Lemma gain_gtb_asym (a b : gain) : gain_gtb a b = true -> gain_gtb b a = false.
Proof.
  destruct a as [|r]; [discriminate|]. destruct b as [|r']; [reflexivity|].
  simpl. destruct (Rgt_dec r r'); [|discriminate]. intros _.
  destruct (Rgt_dec r' r); [lra|reflexivity].
Qed.

Lemma gain_gtb_cotrans (a b c : gain) :
  gain_gtb a b = true -> gain_gtb a c = true \/ gain_gtb c b = true.
Proof.
  destruct a as [|r]; [discriminate|].
  destruct c as [|rc]; [left; reflexivity|].
  destruct b as [|rb]; [right; reflexivity|].
  simpl. destruct (Rgt_dec r rb); [|discriminate]. intros _.
  destruct (Rgt_dec r rc); [left; reflexivity|].
  destruct (Rgt_dec rc rb); [right; reflexivity|lra].
Qed.

(** C6: whatever arithmetic the gains are computed in, provided [>] orders
    its values as a strict weak order (as it does the float64 values other
    than NaN) and every gain exceeds minus infinity: a candidate replaces
    the recorded best exactly when its gain is strictly greater than the
    best so far; the candidates are scanned by ascending feature index and
    then ascending threshold; and the split returned is the first candidate
    of that order that no candidate exceeds in gain (no result only when
    there is no candidate at all). *)
Theorem scan_keeps_first_of_greatest_gain (G : Type) (neg_inf : G)
    (gtb : G -> G -> bool)
    (info_gain : list label -> list label -> list label -> G)
    (X : matrix) (y : list label) :
  (forall a b, gtb a b = true -> gtb b a = false) ->
  (forall a b c, gtb a b = true -> gtb a c = true \/ gtb c b = true) ->
  (forall s, In s (candidates X y) ->
             gtb (split_gain_with info_gain y s) neg_inf = true) ->
  (forall (b : G) (o : option split) (s : split),
      scan_step_with gtb info_gain y (b, o) s
      = if gtb (split_gain_with info_gain y s) b
        then (split_gain_with info_gain y s, Some s)
        else (b, o))
  /\ StronglySorted scan_before (candidates X y)
  /\ match best_split_with neg_inf gtb info_gain X y with
     | Some s => first_greatest gtb info_gain y (candidates X y) s
     | None => candidates X y = []
     end.
Proof.
  intros Hasym Hcotrans Hfinite.
  split; [reflexivity|]. split; [apply candidates_sorted|].
  unfold best_split_with.
  destruct (candidates X y) as [|c cands] eqn:Hc; [reflexivity|].
  destruct (scan_with_invariant G gtb info_gain Hasym Hcotrans y cands [] [] c)
    as [s [Hscan Hfg]]; try constructor.
  unfold scan_with in *. cbn [fold_left]. unfold scan_step_with at 2.
  cbn [fst]. rewrite (Hfinite c (or_introl eq_refl)), Hscan. exact Hfg.
Qed.

Lemma scan_keeps_first_of_greatest_gain_witness :
  (forall (b : gain) (o : option split) (s : split),
      scan_step_with gain_gtb real_info_gain worked_y (b, o) s
      = if gain_gtb (split_gain_with real_info_gain worked_y s) b
        then (split_gain_with real_info_gain worked_y s, Some s)
        else (b, o))
  /\ StronglySorted scan_before (candidates worked_X worked_y)
  /\ match best_split_with NegInf gain_gtb real_info_gain worked_X worked_y with
     | Some s =>
         first_greatest gain_gtb real_info_gain worked_y
           (candidates worked_X worked_y) s
     | None => candidates worked_X worked_y = []
     end.
Proof.
  apply (scan_keeps_first_of_greatest_gain gain NegInf gain_gtb real_info_gain
           worked_X worked_y).
  - exact gain_gtb_asym.
  - exact gain_gtb_cotrans.
  - reflexivity.
Defined.

(** ** [max_depth = 1], over any gain arithmetic *)

Lemma scan_with_member (G : Type) (gtb : G -> G -> bool)
    (info_gain : list label -> list label -> list label -> G)
    (y : list label) (cands : list split) (b : G) (s0 : split) :
  exists s,
    snd (scan_with gtb info_gain y cands (b, Some s0)) = Some s
    /\ In s (s0 :: cands).
Proof.
  revert b s0. induction cands as [|c cands IH]; intros b s0.
  - exists s0. split; [reflexivity|left; reflexivity].
  - unfold scan_with. cbn [fold_left]. unfold scan_step_with at 2. cbn [fst].
    destruct (gtb (split_gain_with info_gain y c) b).
    + destruct (IH (split_gain_with info_gain y c) c) as [s [Hs Hin]].
      exists s. split; [exact Hs|]. right. exact Hin.
    + destruct (IH b s0) as [s [Hs Hin]].
      exists s. split; [exact Hs|].
      destruct Hin as [<-|Hin]; [left; reflexivity|right; right; exact Hin].
Qed.

Lemma best_split_with_exists (G : Type) (neg_inf : G) (gtb : G -> G -> bool)
    (info_gain : list label -> list label -> list label -> G)
    (X : matrix) (y : list label) :
  (forall s, In s (candidates X y) ->
             gtb (split_gain_with info_gain y s) neg_inf = true) ->
  X <> [] ->
  0 < num_features X ->
  exists s,
    best_split_with neg_inf gtb info_gain X y = Some s
    /\ In s (candidates X y).
Proof.
  intros Hfinite HX Hf. unfold best_split_with.
  destruct (candidates X y) as [|c cands] eqn:Hc.
  - exfalso. revert Hc. apply candidates_not_nil; assumption.
  - unfold scan_with. cbn [fold_left]. unfold scan_step_with at 2. cbn [fst].
    rewrite (Hfinite c (or_introl eq_refl)).
    apply scan_with_member.
Qed.

Lemma build_tree_with_at_limit (G : Type) (neg_inf : G) (gtb : G -> G -> bool)
    (info_gain : list label -> list label -> list label -> G)
    (md : option nat) (fuel : nat) (X : matrix) (y : list label)
    (depth : nat) :
  depth_reached md depth = true ->
  build_tree_with neg_inf gtb info_gain md (S fuel) X y depth
  = majority_leaf y.
Proof.
  intros Hd. cbn [build_tree_with].
  destruct (Nat.eqb_spec (length (np_unique y)) 1) as [Hpure|Hmixed].
  - symmetry. apply majority_leaf_pure. exact Hpure.
  - rewrite Hd, orb_true_r. reflexivity.
Qed.

Lemma build_tree_with_split_branch (G : Type) (neg_inf : G)
    (gtb : G -> G -> bool)
    (info_gain : list label -> list label -> list label -> G)
    (md : option nat) (fuel : nat) (X : matrix) (y : list label)
    (depth : nat) (s : split) :
  length (np_unique y) <> 1 ->
  X <> [] ->
  depth_reached md depth = false ->
  best_split_with neg_inf gtb info_gain X y = Some s ->
  build_tree_with neg_inf gtb info_gain md (S fuel) X y depth
  = (XL <- take_rows X (left_y s) ;;
     left_tree <- build_tree_with neg_inf gtb info_gain md fuel XL (left_y s)
                    (S depth) ;;
     XR <- take_rows X (right_y s) ;;
     right_tree <- build_tree_with neg_inf gtb info_gain md fuel XR
                     (right_y s) (S depth) ;;
     Ok (Internal (split_feature_idx s) (split_threshold s)
           left_tree right_tree)).
Proof.
  intros Hpure HX Hdepth Hbest. simpl.
  apply Nat.eqb_neq in Hpure. rewrite Hpure.
  destruct X as [|x X']; [congruence|].
  simpl. rewrite Hdepth. simpl. rewrite Hbest. reflexivity.
Qed.

Lemma take_rows_ok (X : matrix) (idx : list nat) :
  Forall (fun i => i < length X) idx -> exists XL, take_rows X idx = Ok XL.
Proof.
  induction 1 as [|i idx Hi _ [XL IH]].
  - exists []. reflexivity.
  - destruct (nth_error X i) as [r|] eqn:Hr.
    + exists (r :: XL). simpl. rewrite Hr, IH. reflexivity.
    + apply nth_error_None in Hr. lia.
Qed.

Lemma candidate_left_not_nil (X : matrix) (y : list label) (f : nat) (t : Z) :
  length X = length y ->
  In t (column f X) ->
  left_y (candidate X y f t) <> [].
Proof.
  intros Hlen Ht. simpl.
  rewrite select_nil_iff by (rewrite left_mask_length; exact Hlen).
  rewrite Forall_forall. intros Hall.
  assert (Hin : In true (map (fun v => (v <=? t)%Z) (column f X))).
  { apply in_map_iff. exists t. split; [apply Z.leb_refl|exact Ht]. }
  specialize (Hall _ Hin). discriminate Hall.
Qed.

Lemma majority_leaf_ok (y : list label) :
  y <> [] -> exists c, majority_leaf y = Ok (Leaf c) /\ is_majority y c.
Proof.
  intros Hy. destruct (argmax_bincount y Hy) as [c [Hc Hmaj]].
  exists c. unfold majority_leaf. rewrite Hc. split; [reflexivity|exact Hmaj].
Qed.

(** C9, as the code has it: with [max_depth = 1] the root, at depth 0, is
    still split unless it is pure, whatever arithmetic the gains are
    computed in.  If all training labels are identical, the fitted tree is
    a single leaf with that label (the global majority) and every
    prediction is that label.  Otherwise, when every label is a row number
    and the winning split leaves at least one sample on its right side, the
    fitted tree is the winning split over two leaves, the majority labels
    of the split's left and right label arrays, and a row is predicted the
    left leaf's label when its value at the split's feature is at most the
    threshold and the right leaf's label otherwise. *)
Theorem max_depth_one_fits_a_stump (G : Type) (neg_inf : G)
    (gtb : G -> G -> bool)
    (info_gain : list label -> list label -> list label -> G)
    (X : matrix) (y : list label) (fuel : nat) :
  (forall s, In s (candidates X y) ->
             gtb (split_gain_with info_gain y s) neg_inf = true) ->
  length X = length y ->
  (length (np_unique y) = 1 ->
   exists c,
     is_majority y c
     /\ fit_with neg_inf gtb info_gain (S (S fuel)) (init (Some 1)) X y
        = Ok {| max_depth := Some 1; fitted := Some (Leaf c) |}
     /\ forall x, predict {| max_depth := Some 1; fitted := Some (Leaf c) |} [x]
                  = Ok [c])
  /\ (length (np_unique y) <> 1 -> X <> [] -> 0 < num_features X ->
      exists s,
        best_split_with neg_inf gtb info_gain X y = Some s
        /\ In s (candidates X y)
        /\ (Forall (fun c => c < length X) y ->
            right_y s <> [] ->
            exists a b,
              is_majority (left_y s) a
              /\ is_majority (right_y s) b
              /\ fit_with neg_inf gtb info_gain (S (S fuel)) (init (Some 1)) X y
                 = Ok {| max_depth := Some 1;
                         fitted := Some (Internal (split_feature_idx s)
                                           (split_threshold s)
                                           (Leaf a) (Leaf b)) |}
              /\ forall x v,
                   nth_error x (split_feature_idx s) = Some v ->
                   predict {| max_depth := Some 1;
                              fitted := Some (Internal (split_feature_idx s)
                                                (split_threshold s)
                                                (Leaf a) (Leaf b)) |} [x]
                   = Ok [if (v <=? split_threshold s)%Z then a else b])).
Proof.
  intros Hfinite Hlen. split.
  - intros Hpure.
    destruct (majority_leaf_ok y (pure_not_nil y Hpure)) as [c [Hc Hmaj]].
    exists c. split; [exact Hmaj|]. split; [|reflexivity].
    unfold fit_with. cbn [max_depth init build_tree_with].
    apply Nat.eqb_eq in Hpure. rewrite Hpure.
    rewrite majority_leaf_pure in Hc by (apply Nat.eqb_eq; exact Hpure).
    injection Hc as ->. reflexivity.
  - intros Hmixed HX Hf.
    destruct (best_split_with_exists G neg_inf gtb info_gain X y Hfinite HX Hf)
      as [s [Hs Hin]].
    exists s. split; [exact Hs|]. split; [exact Hin|].
    intros Hrange Hright.
    destruct (candidates_in X y s Hin) as [f [t [_ [Ht Heq]]]].
    assert (Hleft : left_y s <> []).
    { rewrite Heq. apply candidate_left_not_nil; assumption. }
    assert (Hsides : Forall (fun c => c < length X) (left_y s)
                     /\ Forall (fun c => c < length X) (right_y s)).
    { apply Forall_app. eapply Permutation_Forall; [|exact Hrange].
      apply Permutation_sym. rewrite Heq. apply candidate_permutation.
      exact Hlen. }
    destruct Hsides as [HrL HrR].
    destruct (take_rows_ok X (left_y s) HrL) as [XL HXL].
    destruct (take_rows_ok X (right_y s) HrR) as [XR HXR].
    destruct (majority_leaf_ok (left_y s) Hleft) as [a [Ha Hmaja]].
    destruct (majority_leaf_ok (right_y s) Hright) as [b [Hb Hmajb]].
    exists a, b. split; [exact Hmaja|]. split; [exact Hmajb|]. split.
    + unfold fit_with. cbn [max_depth init].
      rewrite (build_tree_with_split_branch G neg_inf gtb info_gain (Some 1)
                 (S fuel) X y 0 s Hmixed HX eq_refl Hs).
      rewrite HXL. cbn [bind].
      rewrite (build_tree_with_at_limit G neg_inf gtb info_gain (Some 1) fuel
                 XL (left_y s) 1 eq_refl), Ha.
      cbn [bind]. rewrite HXR. cbn [bind].
      rewrite (build_tree_with_at_limit G neg_inf gtb info_gain (Some 1) fuel
                 XR (right_y s) 1 eq_refl), Hb.
      reflexivity.
    + intros x v Hv. unfold predict. cbn [fitted predict_rows predict_single
                                            predict_node].
      rewrite Hv. destruct (v <=? split_threshold s)%Z; reflexivity.
Qed.

Lemma max_depth_one_fits_a_stump_witness :
  exists a b,
    is_majority [0; 0] a
    /\ is_majority [1; 1] b
    /\ fit_with NegInf gain_gtb real_info_gain 2 (init (Some 1))
         worked_X worked_y
       = Ok {| max_depth := Some 1;
               fitted := Some (Internal 0 2 (Leaf a) (Leaf b)) |}
    /\ forall x v,
         nth_error x 0 = Some v ->
         predict {| max_depth := Some 1;
                    fitted := Some (Internal 0 2 (Leaf a) (Leaf b)) |} [x]
         = Ok [if (v <=? 2)%Z then a else b].
Proof.
  destruct (max_depth_one_fits_a_stump gain NegInf gain_gtb real_info_gain
              worked_X worked_y 0 (fun s _ => eq_refl) eq_refl)
    as [_ Hsplit].
  destruct Hsplit as [s [Hs [_ Hstump]]].
  - simpl. lia.
  - discriminate.
  - simpl. lia.
  - rewrite <- best_split_instance, worked_best_split in Hs.
    injection Hs as <-.
    apply Hstump.
    + repeat constructor.
    + discriminate.
Defined.
